(** * MAP-Elites: archive, placement and selection

    A shallow embedding of [map_elites/mapelites.py]: the classes
    [FeatureDimension] and [MapElites], with the numpy arrays and the
    IEEE-754 doubles they are built on. *)

From Stdlib Require Import ZArith Bool List Lia.
From Stdlib Require Import Floats.SpecFloat.
From stdpp Require Import base option list gmap strings.
From Equations Require Import Equations.

Local Open Scope Z_scope.

(** ** Python floats

    A Python [float] is an IEEE-754 binary64 number. The Standard Library's
    [spec_float] is the specification of such numbers: signed zeros, signed
    infinities, NaN, and finite numbers [(-1)^s * m * 2^e]. *)

Module PyFloat.

Definition float : Type := spec_float.

Definition prec : Z := 53.
Definition emax : Z := 1024.

(** [np.inf], [np.nan] and the literal [0]. *)
Definition inf : float := S754_infinity false.
Definition nan : float := S754_nan.
Definition zero : float := S754_zero false.

(** The double nearest to [m * 2^e]. *)
Definition of_Z2 (m e : Z) : float := binary_normalize prec emax m e false.

(** [a < b], [a <= b], [a == b] and their converses, as the interpreter
    evaluates them on floats: every comparison with NaN is false. *)
Definition float_lt (a b : float) : bool := SFltb a b.
Definition float_le (a b : float) : bool := SFleb a b.
Definition float_eq (a b : float) : bool := SFeqb a b.
Definition float_gt (a b : float) : bool := SFltb b a.
Definition float_ge (a b : float) : bool := SFleb b a.
Definition float_ne (a b : float) : bool := negb (SFeqb a b).

(** [a - b] and [math.fabs(a)]. *)
Definition sub (a b : float) : float := SFsub prec emax a b.
Definition fabs (a : float) : float := SFabs a.

Definition is_nan (a : float) : bool :=
  match a with S754_nan => true | _ => false end.

Definition is_inf (a : float) : bool :=
  match a with S754_infinity _ => true | _ => false end.

(** A float that denotes a real number: neither NaN nor an infinity. *)
Definition is_finite (a : float) : bool :=
  match a with S754_zero _ | S754_finite _ _ _ => true | _ => false end.

(** Position of a non-NaN float in the order the comparisons decide: the
    class (negative infinity, negative, zero, positive, positive infinity),
    then exponent and mantissa, mirrored for negative numbers. *)
Definition rank (a : float) : Z * Z * Z :=
  match a with
  | S754_nan => (0, 0, 0)
  | S754_zero _ => (0, 0, 0)
  | S754_infinity true => (-2, 0, 0)
  | S754_infinity false => (2, 0, 0)
  | S754_finite false m e => (1, e, Zpos m)
  | S754_finite true m e => (-1, - e, Zneg m)
  end.

Definition lex_lt (p q : Z * Z * Z) : Prop :=
  let '(a, b, c) := p in
  let '(a', b', c') := q in
  a < a' \/ (a = a' /\ (b < b' \/ (b = b' /\ c < c'))).

End PyFloat.

Import PyFloat.

(** ** Exceptions

    A call either returns a value or raises. The state a raising call leaves
    behind is not observed by any caller in the module, and is not kept. *)

Inductive exception : Type :=
  | ValueError (msg : string)
  | IndexError (msg : string)
  | TypeError (msg : string)
  | Exception (msg : string).

Inductive result (A : Type) : Type :=
  | Ok (a : A)
  | Raise (e : exception).
Arguments Ok {A} a.
Arguments Raise {A} e.

#[global] Instance result_ret : MRet result := fun A a => Ok a.
#[global] Instance result_bind : MBind result := fun A B f m =>
  match m with
  | Ok a => f a
  | Raise e => Raise e
  end.

Definition is_Ok {A} (r : result A) : bool :=
  match r with Ok _ => true | Raise _ => false end.

Definition raises {A} (r : result A) : bool := negb (is_Ok r).

(** ** The part of numpy the module calls

    numpy is a library the module imports; these definitions follow its
    documented behaviour ([np.full], integer-tuple indexing, [np.digitize],
    [np.searchsorted], [np.random.randint]). *)

Module Numpy.

(** An n-dimensional array: its shape, and one item per in-range
    coordinate tuple. *)
Record ndarray (A : Type) : Type := mk_ndarray {
  shape : list Z;
  data : gmap (list Z) A
}.
Arguments mk_ndarray {A} shape data.
Arguments shape {A} _.
Arguments data {A} _.

(** One index along an axis of length [n]: [-n <= i < 0] counts from the
    end, anything outside [-n <= i < n] is out of bounds. *)
Definition normalize_axis (n i : Z) : option Z :=
  if decide (0 <= i < n) then Some i
  else if decide (- n <= i < 0) then Some (i + n)
  else None.

(** A full coordinate tuple [b] (one integer per axis). A tuple shorter
    than the rank, which numpy reads as the selection of a sub-array, is
    not the coordinate of a cell and has no image; what is stated about
    reading or writing a cell is stated for tuples of at least the rank. *)
Fixpoint normalize_index (shp b : list Z) : option (list Z) :=
  match shp, b with
  | [], [] => Some []
  | n :: shp', i :: b' =>
      match normalize_axis n i, normalize_index shp' b' with
      | Some i', Some c => Some (i' :: c)
      | _, _ => None
      end
  | _, _ => None
  end.

(** [arr[b]] *)
Definition getitem {A} (arr : ndarray A) (b : list Z) : result A :=
  match normalize_index (shape arr) b with
  | Some c =>
      match data arr !! c with
      | Some v => Ok v
      | None => Raise (IndexError "index out of bounds")
      end
  | None => Raise (IndexError "index out of bounds")
  end.

(** [arr[b] = v] *)
Definition setitem {A} (arr : ndarray A) (b : list Z) (v : A) : result (ndarray A) :=
  match normalize_index (shape arr) b with
  | Some c =>
      match data arr !! c with
      | Some _ => Ok (mk_ndarray (shape arr) (<[c := v]> (data arr)))
      | None => Raise (IndexError "index out of bounds")
      end
  | None => Raise (IndexError "index out of bounds")
  end.

(** All coordinate tuples of an array of the given shape, in row-major
    order. *)
Fixpoint ndindex (shp : list Z) : list (list Z) :=
  match shp with
  | [] => [[]]
  | n :: shp' => i ← seqZ 0 n; c ← ndindex shp'; [i :: c]
  end.

(** [np.full(shape, fill_value)] *)
Definition full {A} (shp : list Z) (fill_value : A) : result (ndarray A) :=
  if forallb (fun n => 0 <=? n) shp
  then Ok (mk_ndarray shp (list_to_map ((fun c => (c, fill_value)) <$> ndindex shp)))
  else Raise (ValueError "negative dimensions are not allowed").

(** An array of the given shape that holds one item per coordinate tuple
    of that shape, as every array numpy builds does. *)
Definition dense {A} (shp : list Z) (arr : ndarray A) : Prop :=
  shape arr = shp /\ dom (data arr) = list_to_set (ndindex shp).

(** The order [np.searchsorted] sorts doubles by: NaN is the largest. *)
Definition less (a b : float) : bool :=
  float_lt a b || (is_nan b && negb (is_nan a)).

Inductive side : Type := side_left | side_right.

(** [cmp(mid_val, key_val)] of the binary search: [less] for
    [side='left'], [less_equal] for [side='right']. *)
Definition side_cmp (s : side) (mid_val key_val : float) : bool :=
  match s with
  | side_left => less mid_val key_val
  | side_right => negb (less key_val mid_val)
  end.

(** The binary search of [np.searchsorted] between [min_idx] and
    [max_idx]. *)
Equations? binsearch (s : side) (arr : list float) (key_val : float)
    (min_idx max_idx : nat) : nat by wf (max_idx - min_idx)%nat Nat.lt :=
binsearch s arr key_val min_idx max_idx with decide (min_idx < max_idx)%nat => {
  | right _ => min_idx
  | left _ with side_cmp s (nth (min_idx + (max_idx - min_idx) / 2) arr nan) key_val => {
    | true => binsearch s arr key_val (S (min_idx + (max_idx - min_idx) / 2)) max_idx
    | false => binsearch s arr key_val min_idx (min_idx + (max_idx - min_idx) / 2) } }.
Proof.
  all: unfold Nat.lt; clear binsearch;
    change (Nat.divmod (max_idx - min_idx) 1 0 1).1 with ((max_idx - min_idx) / 2)%nat;
    assert ((max_idx - min_idx) / 2 < max_idx - min_idx)%nat
      by (apply Nat.div_lt; lia);
    lia.
Qed.

(** [np.searchsorted(arr, key, side)] for one key. *)
Definition searchsorted (arr : list float) (key_val : float) (s : side) : nat :=
  binsearch s arr key_val 0 (length arr).

(** Skip the values at the start of the array that repeat [last]. *)
Fixpoint skip_repeated (last : float) (a : list float) : list float :=
  match a with
  | [] => []
  | next :: a' => if float_eq next last then skip_repeated last a' else a
  end.

(** No step down, respectively no step up, from [last] through [a]. *)
Fixpoint no_descent (last : float) (a : list float) : bool :=
  match a with
  | [] => true
  | next :: a' => if float_gt last next then false else no_descent next a'
  end.

Fixpoint no_ascent (last : float) (a : list float) : bool :=
  match a with
  | [] => true
  | next :: a' => if float_lt last next then false else no_ascent next a'
  end.

(** The monotonicity check of [np.digitize]: [1] for increasing bins (and
    for bins that are all equal, or empty), [-1] for decreasing bins,
    [0] otherwise. *)
Definition check_array_monotonic (a : list float) : Z :=
  match a with
  | [] => 1
  | last :: a' =>
      match skip_repeated last a' with
      | [] => 1
      | next :: rest =>
          if float_lt last next
          then (if no_descent next rest then 1 else 0)
          else (if no_ascent next rest then -1 else 0)
      end
  end.

(** [np.digitize([x], bins)[0]], with [right=False]: the search is made
    with [side='right']; decreasing bins are reversed and the result is
    counted from the end. *)
Definition digitize (x : float) (bins : list float) : result nat :=
  let mono := check_array_monotonic bins in
  if decide (mono = 0) then
    Raise (ValueError "bins must be monotonically increasing or decreasing")
  else if decide (mono = -1) then
    Ok (length bins - searchsorted (rev bins) x side_right)%nat
  else
    Ok (searchsorted bins x side_right).

(** Edges that increase strictly from each one to the next. *)
Fixpoint strictly_increasing (a : list float) : bool :=
  match a with
  | [] => true
  | x :: a' =>
      match a' with
      | [] => true
      | y :: _ => float_lt x y && strictly_increasing a'
      end
  end.

(** Sorted, and free of NaN (an edge compares [<=] to itself). *)
Definition sorted (arr : list float) : Prop :=
  forall i j, (i <= j < length arr)%nat -> float_le (nth i arr nan) (nth j arr nan) = true.

(** The random generator: [tape k] is the [k]-th raw number it yields, and
    the state of the generator is the position on the tape. *)
Definition tape : Type := nat -> Z.

(** [np.random.randint(low, high, 1)[0]] *)
Definition randint (t : tape) (low high : Z) (pos : nat) : result (Z * nat) :=
  if decide (low < high)
  then Ok (low + t pos `mod` (high - low), S pos)
  else Raise (ValueError "low >= high").

End Numpy.

Import Numpy.

(** ** Values of the interpreter the module handles *)

(** A genotype, as the archive stores it: [self.solutions] has dtype
    [(float, 2)], two doubles per cell, and a candidate is a vector of that
    length. *)
Definition genotype : Type := float * float.

Definition components (x : genotype) : list float := [x.1; x.2].

(** The objects passed as [feature_function_operator]: the functions of the
    [operator] module the code names, and any other object. *)
Inductive py_operator : Type :=
  | operator_eq
  | operator_le
  | operator_lt
  | operator_ge
  | operator_gt
  | operator_ne
  | other_object (repr : string).

#[global] Instance py_operator_eq_dec : EqDecision py_operator.
Proof. solve_decision. Defined.

(** [op(a, b)]; an object that is not one of the comparison functions is
    taken not to be callable. *)
Definition call_operator (op : py_operator) (a b : float) : result bool :=
  match op with
  | operator_eq => Ok (float_eq a b)
  | operator_le => Ok (float_le a b)
  | operator_lt => Ok (float_lt a b)
  | operator_ge => Ok (float_ge a b)
  | operator_gt => Ok (float_gt a b)
  | operator_ne => Ok (float_ne a b)
  | other_object _ => Raise (TypeError "object is not callable")
  end.

(** ** class FeatureDimension *)

Module FeatureDimension.

Record t : Type := mk {
  name : string;
  feature_function_call : genotype -> float;
  feature_function_target : genotype -> float;
  feature_function_operator : py_operator;
  bins : list float
}.

Definition supported_operators : list py_operator :=
  [operator_eq; operator_le; operator_lt; operator_ge; operator_gt].

Definition __init__ (name : string)
    (feature_function_target feature_function_call : genotype -> float)
    (feature_function_operator : py_operator) (bins : list float) : result t :=
  if decide (feature_function_operator ∉ supported_operators)
  then Raise (ValueError "Feature function operator not recognized")
  else Ok (mk name feature_function_call feature_function_target
              feature_function_operator bins).

(** The integer [0] of the feasible branch is read as the float [0.0]. *)
Definition feature_descriptor (self : t) (x : genotype) : result float :=
  if decide (feature_function_operator self = operator_eq) then
    Ok (fabs (sub (feature_function_call self x) (feature_function_target self x)))
  else
    holds ← call_operator (feature_function_operator self)
               (feature_function_call self x) (feature_function_target self x);
    if (holds : bool) then Ok zero
    else Ok (fabs (sub (feature_function_call self x) (feature_function_target self x))).

Definition discretize (self : t) (value : float) : result Z :=
  index ← digitize value (bins self);
  if decide (index ∈ [0%nat; length (bins self)])
  then Raise (Exception "value outside of bins")
  else Ok (Z.of_nat index - 1).

End FeatureDimension.

(** What [generate_feature_dimensions] may hand back: any object. *)
#[warnings="-register-all"]
Inductive pyobj : Type :=
  | PyNone
  | PyInt (z : Z)
  | PyStr (s : string)
  | PyFeatureDimension (ft : FeatureDimension.t)
  | PyList (items : list pyobj)
  | PyTuple (items : list pyobj).

(** [isinstance(o, FeatureDimension)] *)
Definition isinstance_FeatureDimension (o : pyobj) : bool :=
  match o with PyFeatureDimension _ => true | _ => false end.

(** [isinstance(o, (list, tuple))] *)
Definition isinstance_list_or_tuple (o : pyobj) : bool :=
  match o with PyList _ | PyTuple _ => true | _ => false end.

(** The items a [for] loop over the object visits. *)
Definition items_of (o : pyobj) : list pyobj :=
  match o with PyList l | PyTuple l => l | _ => [] end.

Definition as_FeatureDimensions (l : list pyobj) : list FeatureDimension.t :=
  omap (fun o => match o with PyFeatureDimension ft => Some ft | _ => None end) l.

(** ** class MapElites *)

Module MapElites.

(** The four abstract methods a concrete optimizer supplies, as functions
    of the candidate; [generate_random_solution] draws its numbers from the
    generator. A coordinate tuple has one integer per axis. *)
Class Problem : Type := {
  performance_measure : genotype -> float;
  map_x_to_b : genotype -> result (list Z);
  generate_random_solution : tape -> nat -> genotype * nat;
  generate_feature_dimensions : pyobj
}.

(** The attributes of the object the archive operations read and write. *)
Record t : Type := mk {
  minimization : bool;
  place_operator : py_operator;
  iterations : nat;
  random_solutions : nat;
  feature_dimensions : list FeatureDimension.t;
  solutions : ndarray genotype;
  performances : ndarray float
}.

(** [[len(ft.bins) - 1 for ft in self.feature_dimensions]] *)
Definition ft_bins (fts : list FeatureDimension.t) : list Z :=
  (fun ft => Z.of_nat (length (FeatureDimension.bins ft)) - 1) <$> fts.

Section WithProblem.
Context `{P : Problem}.

(** The constructor, as far as the archive goes. The statements left out
    ([optimization_function(...)], the opening of [log.log], the creation
    of the log directory) touch none of the attributes kept here; each of
    them may raise, and [Ok] stands for a constructor in which they
    returned. *)
Definition __init__ (iterations random_solutions : nat) (minimization : bool)
    : result t :=
  let place_operator := if minimization then operator_lt else operator_ge in
  let feature_dimensions := generate_feature_dimensions in
  if negb (isinstance_list_or_tuple feature_dimensions)
     || negb (forallb isinstance_FeatureDimension (items_of feature_dimensions))
  then Raise (Exception
    "MapElites: `feature_dimensions` must be either a list or a tuple object of FeatureDimension objects")
  else
    let fts := as_FeatureDimensions (items_of feature_dimensions) in
    solutions ← full (ft_bins fts) (inf, inf);
    performances ← full (ft_bins fts) inf;
    Ok (mk minimization place_operator iterations random_solutions fts
           solutions performances).

Definition place_in_mapelites (self : t) (x : genotype) : result t :=
  b ← map_x_to_b x;
  let perf := performance_measure x in
  incumbent ← getitem (performances self) b;
  better ← call_operator (place_operator self) perf incumbent;
  if (better : bool) then
    performances' ← setitem (performances self) b perf;
    solutions' ← setitem (solutions self) b x;
    Ok (mk (minimization self) (place_operator self) (iterations self)
           (random_solutions self) (feature_dimensions self)
           solutions' performances')
  else Ok self.

(** A sequence of [place_in_mapelites] calls, as [generate_initial_population]
    and [run] make them; an exception ends the sequence. *)
Fixpoint place_all (self : t) (xs : list genotype) : result t :=
  match xs with
  | [] => Ok self
  | x :: xs' => self' ← place_in_mapelites self x; place_all self' xs'
  end.

(** The loop of [generate_initial_population]: [n] random solutions, each
    placed as soon as it is generated. *)
Fixpoint initial_population_loop (n : nat) (self : t) (rnd : tape) (pos : nat)
    : result (t * nat) :=
  match n with
  | O => Ok (self, pos)
  | S n' =>
      let '(x, pos') := generate_random_solution rnd pos in
      self' ← place_in_mapelites self x;
      initial_population_loop n' self' rnd pos'
  end.

Definition generate_initial_population (self : t) (rnd : tape) (pos : nat)
    : result (t * nat) :=
  initial_population_loop (random_solutions self) self rnd pos.

(** The solutions the generator hands out in [n] successive calls. *)
Fixpoint generated (n : nat) (rnd : tape) (pos : nat) : list genotype * nat :=
  match n with
  | O => ([], pos)
  | S n' =>
      let '(x, pos') := generate_random_solution rnd pos in
      let '(xs, pos'') := generated n' rnd pos' in
      (x :: xs, pos'')
  end.

End WithProblem.

(** *** random_selection *)

(** The loop of [_get_random_index] over the feature dimensions. *)
Fixpoint random_index_loop (rnd : tape) (fts : list FeatureDimension.t)
    (indexes : list Z) (pos : nat) : result (list Z * nat) :=
  match fts with
  | [] => Ok (indexes, pos)
  | ft :: fts' =>
      '(rnd_ind, pos') ← randint rnd 0 (Z.of_nat (length (FeatureDimension.bins ft)) - 1) pos;
      random_index_loop rnd fts' (indexes ++ [rnd_ind]) pos'
  end.

Definition _get_random_index (self : t) (rnd : tape) (pos : nat)
    : result (list Z * nat) :=
  random_index_loop rnd (feature_dimensions self) [] pos.

(** The test on one component of a stored genotype. *)
Definition nan_or_inf (x : float) : bool := float_eq x nan || float_eq (fabs x) inf.

Definition _is_not_initialized (self : t) (index : list Z) : result bool :=
  g ← getitem (solutions self) index;
  Ok (existsb nan_or_inf (components g)).

(** The emptiness test as the specification words it: some component of
    the stored genotype has infinite absolute value. *)
Definition is_not_initialized_by_infinity (self : t) (index : list Z) : result bool :=
  g ← getitem (solutions self) index;
  Ok (existsb (fun x => float_eq (fabs x) inf) (components g)).

(** [while idx in idxs or _is_not_initialized(idx): idx = _get_random_index()].
    The loop has no bound of its own: [fuel] counts the draws it may still
    make, and [None] is the loop that has not stopped within them. *)
Fixpoint redraw_loop (fuel : nat) (self : t) (rnd : tape) (idxs : list (list Z))
    (idx : list Z) (pos : nat) : option (result (list Z * nat)) :=
  match (if decide (idx ∈ idxs) then Ok true else _is_not_initialized self idx) with
  | Raise e => Some (Raise e)
  | Ok false => Some (Ok (idx, pos))
  | Ok true =>
      match fuel with
      | O => None
      | S fuel' =>
          match _get_random_index self rnd pos with
          | Raise e => Some (Raise e)
          | Ok (idx', pos') => redraw_loop fuel' self rnd idxs idx' pos'
          end
      end
  end.

(** [for _ in range(0, individuals)]: the state of the loop is the pair
    [idxs], [inds] and the generator. *)
Fixpoint select_loop (fuel : nat) (self : t) (rnd : tape) (individuals : nat)
    (idxs : list (list Z)) (inds : list genotype) (pos : nat)
    : option (result (list (list Z) * list genotype * nat)) :=
  match individuals with
  | O => Some (Ok (idxs, inds, pos))
  | S individuals' =>
      match _get_random_index self rnd pos with
      | Raise e => Some (Raise e)
      | Ok (idx, pos1) =>
          match redraw_loop fuel self rnd idxs idx pos1 with
          | None => None
          | Some (Raise e) => Some (Raise e)
          | Some (Ok (idx', pos2)) =>
              match getitem (solutions self) idx' with
              | Raise e => Some (Raise e)
              | Ok g =>
                  select_loop fuel self rnd individuals'
                    (idxs ++ [idx']) (inds ++ [g]) pos2
              end
          end
      end
  end.

Definition random_selection (fuel : nat) (self : t) (rnd : tape)
    (individuals : nat) (pos : nat) : option (result (list genotype * nat)) :=
  match select_loop fuel self rnd individuals [] [] pos with
  | None => None
  | Some (Raise e) => Some (Raise e)
  | Some (Ok (_, inds, pos')) => Some (Ok (inds, pos'))
  end.

(** *** Notions the statements use *)

(** The stored genotype is not the one of an empty cell, as
    [_is_not_initialized] decides it. *)
Definition initialized (g : genotype) : bool := negb (existsb nan_or_inf (components g)).

(** The occupied cells of the archive. *)
Definition occupied_cells (self : t) : gmap (list Z) genotype :=
  filter (fun cg => initialized cg.2 = true) (data (solutions self)).

(** The comparator is the one the direction of the objective selects, and
    both grids have the shape the feature dimensions give. *)
Definition well_formed (self : t) : Prop :=
  place_operator self = (if minimization self then operator_lt else operator_ge) /\
  dense (ft_bins (feature_dimensions self)) (solutions self) /\
  dense (ft_bins (feature_dimensions self)) (performances self).

#[global] Instance well_formed_dec (self : t) : Decision (well_formed self).
Proof. unfold well_formed, dense. apply _. Defined.

(** [p] is at least as good as [q] in the direction of the objective. *)
Definition at_least_as_good (minimization : bool) (p q : float) : bool :=
  if minimization then float_le p q else float_ge p q.

Section Invariant.
Context `{P : Problem}.

(** No stored performance is NaN. *)
Definition no_nan_stored (self : t) : Prop :=
  forall c p, data (performances self) !! c = Some p -> is_nan p = false.

(** The cell of every candidate of [seen] stores a performance that no
    comparison with the candidate's beats, and that is at least as good as
    the candidate's when that one is a number. *)
Definition dominates (self : t) (seen : list genotype) : Prop :=
  forall x b c,
    x ∈ seen ->
    map_x_to_b x = Ok b ->
    normalize_index (ft_bins (feature_dimensions self)) b = Some c ->
    exists p, data (performances self) !! c = Some p /\
      (is_nan (performance_measure x) = false ->
       at_least_as_good (minimization self) p (performance_measure x) = true).

End Invariant.

(** The cells chosen so far are distinct occupied cells, and [inds] holds
    their genotypes in the same order. *)
Definition chosen (self : t) (idxs : list (list Z)) (inds : list genotype) : Prop :=
  NoDup idxs /\
  Forall2 (fun idx g => occupied_cells self !! idx = Some g) idxs inds.

(** Every axis of the grid has at least one bin, so that [randint] has a
    number to draw. *)
Definition drawable (self : t) : Prop :=
  Forall (fun n => 0 < n) (ft_bins (feature_dimensions self)).


End MapElites.

(** ** A concrete optimizer

    One feature dimension with bin edges 0, 1, 2, 3 and relation "equals"
    against the target 0: the first gene is the feature, the second gene is
    the performance. *)

Module Example.

Definition f (n : Z) : float := of_Z2 n 0.
Definition half (n : Z) : float := of_Z2 n (-1).

Definition ft : FeatureDimension.t :=
  FeatureDimension.mk "feature" (fun x => x.1) (fun _ => zero) operator_eq
    [f 0; f 1; f 2; f 3].

(** A constraint "first gene <= second gene" over the same edges. *)
Definition ft_le : FeatureDimension.t :=
  FeatureDimension.mk "constraint" (fun x => x.1) (fun x => x.2) operator_le
    [f 0; f 1; f 2; f 3].

#[global] Instance problem : MapElites.Problem := {
  MapElites.performance_measure x := x.2;
  MapElites.map_x_to_b x :=
    d ← FeatureDimension.feature_descriptor ft x;
    i ← FeatureDimension.discretize ft d;
    Ok [i];
  MapElites.generate_random_solution rnd pos :=
    ((f (rnd pos), f (rnd (S pos))), S (S pos));
  MapElites.generate_feature_dimensions := PyList [PyFeatureDimension ft]
}.

(** An optimizer whose [generate_feature_dimensions] returns [None]. *)
Definition misconfigured : MapElites.Problem := {|
  MapElites.performance_measure x := x.2;
  MapElites.map_x_to_b x := Ok [0];
  MapElites.generate_random_solution rnd pos := ((zero, zero), pos);
  MapElites.generate_feature_dimensions := PyNone
|}.

(** The archive after construction, for either direction of the objective. *)
Definition fresh (minimization : bool) : result MapElites.t :=
  MapElites.__init__ 10 3 minimization.

(** The archive of a call that returned. *)
Definition unwrap (r : result MapElites.t) : MapElites.t :=
  match r with
  | Ok self => self
  | Raise _ =>
      MapElites.mk true operator_lt 0 0 [] (mk_ndarray [] ∅) (mk_ndarray [] ∅)
  end.

Definition archive (minimization : bool) : MapElites.t := unwrap (fresh minimization).

(** Three seeds with features 0.5, 1.5, 2.5 and performances 10, 5, 8. *)
Definition seeds : list genotype := [(half 1, f 10); (half 3, f 5); (half 5, f 8)].

Definition seeded (minimization : bool) : MapElites.t :=
  unwrap (MapElites.place_all (archive minimization) seeds).

(** The same grids, read by a maximizing archive. *)
Definition seeded_max : MapElites.t :=
  MapElites.mk false operator_ge 10 3 [ft]
    (MapElites.solutions (seeded true)) (MapElites.performances (seeded true)).

(** The generator that yields 0, 1, 2, ... *)
Definition counting : tape := fun k => Z.of_nat k.

End Example.

(** ** Notions the further properties use *)

(** Edges that decrease strictly from each one to the next. *)
Fixpoint strictly_decreasing (a : list float) : bool :=
  match a with
  | [] => true
  | x :: a' =>
      match a' with
      | [] => true
      | y :: _ => float_gt x y && strictly_decreasing a'
      end
  end.

Module Archive.
Import MapElites.

Section WithProblem.
Context `{P : Problem}.

(** The two grids tell the same story: a cell either still holds the
    sentinels it was created with, or holds one of the candidates of
    [placed], the performance computed for it, at the coordinates it maps
    to. *)
Definition in_sync (self : t) (placed : list genotype) : Prop :=
  forall c g p,
    data (solutions self) !! c = Some g ->
    data (performances self) !! c = Some p ->
    (g = (inf, inf) /\ p = inf) \/
    (g ∈ placed /\ p = performance_measure g /\
     exists b, map_x_to_b g = Ok b /\
       normalize_index (ft_bins (feature_dimensions self)) b = Some c).

End WithProblem.

(** The comparison [place_in_mapelites] makes, as a function of the
    direction of the objective. *)
Definition beats (minimization : bool) (p q : float) : bool :=
  if minimization then float_lt p q else float_ge p q.

(** The number of cells of a grid of the given shape. *)
Definition cell_count (shp : list Z) : Z := foldr Z.mul 1 shp.

End Archive.

(** ** The rest of class MapElites: the main loop and the plot *)

Module Orchestrator.
Import MapElites.

(** Keyword arguments, [**self.mutation_args]. *)
Definition kwargs : Type := gmap string float.

(** What a call of the mutation operator leaves behind: the sequence it
    returns, and the contents of its argument after the call. The argument
    is an element of [random_selection]'s result, a view of the archive
    cell it was read from: what the operator writes to it, it writes to
    the cell. *)
Record mutation_result : Type := mk_mutation_result {
  offspring : list genotype;
  argument_after : genotype
}.

(** The collaborators of the loop that are not part of the module: the
    mutation operator and its arguments (given to the constructor), the
    file system behind [save_logs], [plot_heatmap], and the formatting of
    one axis label, [f'{i}: {a} to {b}']. *)
Class Collaborators : Type := {
  mutation_op : genotype -> kwargs -> tape -> nat -> result (mutation_result * nat);
  mutation_args : option kwargs;
  save_logs : MapElites.t -> result unit;
  plot_heatmap : ndarray float -> list string -> list string -> result unit;
  format_label : nat -> float -> float -> string
}.

Section WithCollaborators.
Context `{P : Problem} `{C : Collaborators}.

(** [zip(range(0, len(bins)), np.insert(bins, 0, 0), bins)], formatted,
    without its first element. *)
Definition stringify_bin_axis (bins : list float) : list string :=
  tail ((fun iab => format_label iab.1.1 iab.1.2 iab.2)
          <$> zip (zip (seq 0 (length bins)) (zero :: bins)) bins).

(** The axis labels [plot_map_of_elites] computes. The feature dimensions
    are kept as a list; the message of the [IndexError] is the one a list
    gives (a tuple names itself in it). *)
Definition heatmap_axes (self : t) : result (list string * list string) :=
  match feature_dimensions self !! 0%nat with
  | None => Raise (IndexError "list index out of range")
  | Some ft0 =>
      let x_ax := stringify_bin_axis (FeatureDimension.bins ft0) in
      if decide (length (feature_dimensions self) = 1%nat) then Ok (x_ax, ["a"])
      else
        match feature_dimensions self !! 1%nat with
        | None => Raise (IndexError "list index out of range")
        | Some ft1 => Ok (x_ax, stringify_bin_axis (FeatureDimension.bins ft1))
        end
  end.

Definition plot_map_of_elites (self : t) : result unit :=
  '(x_ax, y_ax) ← heatmap_axes self;
  plot_heatmap (performances self) x_ax y_ax.

Definition stopping_criteria (self : t) : bool := false.

(** One pass of the loop of [run] for each of the [n] iterations left. The
    individual is [self.random_selection(individuals=1)[0]], read at the
    coordinates [idx]. Unpacking [**None] raises [TypeError]; of its
    message, which starts with the name of the callee, the rest is kept. *)
Fixpoint evolve (fuel : nat) (n : nat) (self : t) (rnd : tape) (pos : nat)
    : option (result (t * nat)) :=
  match n with
  | O => Some (Ok (self, pos))
  | S n' =>
      if stopping_criteria self then Some (Ok (self, pos))
      else
        match select_loop fuel self rnd 1 [] [] pos with
        | None => None
        | Some (Raise e) => Some (Raise e)
        | Some (Ok (idxs, inds, pos1)) =>
            match idxs, inds with
            | idx :: _, ind :: _ =>
                match mutation_args with
                | None => Some (Raise (TypeError
                    "argument after ** must be a mapping, not NoneType"))
                | Some args =>
                    match mutation_op ind args rnd pos1 with
                    | Raise e => Some (Raise e)
                    | Ok (m, pos2) =>
                        match setitem (solutions self) idx (argument_after m) with
                        | Raise e => Some (Raise e)
                        | Ok solutions' =>
                            let self1 :=
                              mk (minimization self) (place_operator self)
                                 (iterations self) (random_solutions self)
                                 (feature_dimensions self) solutions'
                                 (performances self) in
                            match offspring m with
                            | [] => Some (Raise (IndexError "index out of range"))
                            | child :: _ =>
                                match place_in_mapelites self1 child with
                                | Raise e => Some (Raise e)
                                | Ok self2 => evolve fuel n' self2 rnd pos2
                                end
                            end
                        end
                    end
                end
            | _, _ => Some (Raise (IndexError "list index out of range"))
            end
        end
  end.

Definition run (fuel : nat) (self : t) (rnd : tape) (pos : nat)
    : option (result (t * nat)) :=
  match generate_initial_population self rnd pos with
  | Raise e => Some (Raise e)
  | Ok (self1, pos1) =>
      match evolve fuel (iterations self1) self1 rnd pos1 with
      | None => None
      | Some (Raise e) => Some (Raise e)
      | Some (Ok (self2, pos2)) =>
          match save_logs self2 with
          | Raise e => Some (Raise e)
          | Ok _ =>
              match plot_map_of_elites self2 with
              | Raise e => Some (Raise e)
              | Ok _ => Some (Ok (self2, pos2))
              end
          end
      end
  end.

(** The operator leaves its argument as it found it. *)
Definition mutation_is_pure : Prop :=
  forall ind args rnd pos m pos',
    mutation_op ind args rnd pos = Ok (m, pos') -> argument_after m = ind.

End WithCollaborators.

End Orchestrator.

(** ** The cells of the archive, as the specification speaks of them

    These notions are stated on the stored genotype itself; none of them
    goes through the test the selector makes. *)

Module Cells.
Import MapElites.

(** The genotype every cell holds after construction. *)
Definition sentinel : genotype := (inf, inf).

Definition is_sentinel (g : genotype) : bool :=
  match g with
  | (S754_infinity false, S754_infinity false) => true
  | _ => false
  end.

(** The non-empty cells: the cells that hold another genotype than the
    sentinel. *)
Definition non_sentinel_cells (self : t) : gmap (list Z) genotype :=
  filter (fun cg => is_sentinel cg.2 = false) (data (solutions self)).



End Cells.

(** ** A concrete run

    The optimizer of [Example] with a mutation operator that keeps the
    feature gene of the individual, draws a new performance gene from the
    generator and leaves the individual itself untouched. Nothing is
    written to disk or drawn, and the labels are not rendered. *)

Module RunExample.
Import Example Orchestrator.

#[global] Instance collaborators : Collaborators := {
  mutation_op ind args rnd pos :=
    Ok (mk_mutation_result [(ind.1, f (rnd pos))] ind, S pos);
  mutation_args := Some ∅;
  save_logs _ := Ok ();
  plot_heatmap _ _ _ := Ok ();
  format_label _ _ _ := "bin"
}.

(** The same collaborators, configured as [from_config] does for a
    mutation type other than GAUSSIAN: no arguments. *)
Definition without_args : Collaborators := {|
  mutation_op := mutation_op;
  mutation_args := None;
  save_logs := save_logs;
  plot_heatmap := plot_heatmap;
  format_label := format_label
|}.

(** The generator that yields 0, 1, 2, 0, 1, 2, ... *)
Definition cycling : tape := fun k => Z.of_nat k `mod` 3.

(** The archive after seeding from the generator [rnd]. *)
Definition seeded_by (minimization : bool) (rnd : tape) : MapElites.t :=
  unwrap (MapElites.place_all (archive minimization)
            (MapElites.generated 3 rnd 0).1).

(** The result of a run of the minimizing optimizer. *)
Definition final : MapElites.t * nat :=
  match run 20 (archive true) cycling 0 with
  | Some (Ok r) => r
  | _ => (archive true, 0%nat)
  end.

(** A candidate for bin 1 whose performance gene is [-infinity], and the
    seeded archive after its placement. *)
Definition bottomless : genotype := (half 3, S754_infinity true).

Definition sunk : MapElites.t :=
  unwrap (MapElites.place_in_mapelites (seeded true) bottomless).

(** The optimizer of [Example] with a [map_x_to_b] that sends every
    solution to the coordinate 7, outside the three bins. *)
Definition astray : MapElites.Problem := {|
  MapElites.performance_measure x := x.2;
  MapElites.map_x_to_b x := Ok [7];
  MapElites.generate_random_solution rnd pos :=
    ((f (rnd pos), f (rnd (S pos))), S (S pos));
  MapElites.generate_feature_dimensions := PyList [PyFeatureDimension ft]
|}.

(** Edges that go down, and a dimension with a single edge. *)
Definition ft_down : FeatureDimension.t :=
  FeatureDimension.mk "down" (fun x => x.1) (fun _ => zero) operator_eq
    [f 3; f 2; f 1; f 0].

Definition ft_single : FeatureDimension.t :=
  FeatureDimension.mk "single" (fun x => x.1) (fun _ => zero) operator_eq [f 0].

(** An archive over [ft_single]: one axis, of length 0. *)
Definition flat : MapElites.t :=
  MapElites.mk true operator_lt 10 3 [ft_single] (mk_ndarray [0] ∅) (mk_ndarray [0] ∅).

(** An optimizer without feature dimensions: every solution maps to the
    empty coordinate tuple, the only cell of a grid of shape [()]. *)
Definition dimensionless : MapElites.Problem := {|
  MapElites.performance_measure x := x.2;
  MapElites.map_x_to_b x := Ok [];
  MapElites.generate_random_solution rnd pos :=
    ((f (rnd pos), f (rnd (S pos))), S (S pos));
  MapElites.generate_feature_dimensions := PyList []
|}.

Definition pointlike : MapElites.t :=
  unwrap (@MapElites.__init__ dimensionless 2 1 true).

Definition pointlike_seeded : MapElites.t * nat :=
  match @MapElites.generate_initial_population dimensionless pointlike cycling 0 with
  | Ok r => r
  | Raise _ => (pointlike, 0%nat)
  end.

Definition pointlike_evolved : MapElites.t * nat :=
  match @evolve dimensionless collaborators 5 2 pointlike_seeded.1 cycling
          pointlike_seeded.2 with
  | Some (Ok r) => r
  | _ => (pointlike, 0%nat)
  end.

End RunExample.

(** * Properties

    ** The order on floats *)

Section FloatOrder.
Lemma SFcompare_nan_l (a : float) : SFcompare S754_nan a = None.
Proof. reflexivity. Qed.

Lemma SFcompare_nan_r (a : float) : SFcompare a S754_nan = None.
Proof. destruct a as [ | [] | | ]; reflexivity. Qed.

Lemma SFcompare_Lt (a b : float) :
  SFcompare a b = Some Lt <->
  is_nan a = false /\ is_nan b = false /\ lex_lt (rank a) (rank b).
Proof.
  destruct a as [sa|sa| |sa ma ea], b as [sb|sb| |sb mb eb];
    try destruct sa; try destruct sb; cbn;
    try (split; [intros [=] | intros (? & ? & ?); (discriminate || lia)]; fail);
    try (split; [intros _; repeat split; lia | reflexivity ]; fail).
  - (* both negative *)
    rewrite Pos.compare_cont_spec; cbn.
    destruct (Z.compare_spec ea eb), (Pos.compare_spec ma mb); cbn;
      (split; [intros [=] | intros (_ & _ & ?)]; try lia; try reflexivity);
      repeat split; lia.
  - rewrite Pos.compare_cont_spec; cbn.
    destruct (Z.compare_spec ea eb), (Pos.compare_spec ma mb); cbn;
      (split; [intros [=] | intros (_ & _ & ?)]; try lia; try reflexivity);
      repeat split; lia.
Qed.

Lemma SFcompare_Eq (a b : float) :
  SFcompare a b = Some Eq <->
  is_nan a = false /\ is_nan b = false /\ rank a = rank b.
Proof.
  destruct a as [sa|sa| |sa ma ea], b as [sb|sb| |sb mb eb];
    try destruct sa; try destruct sb; cbn;
    try (split; [intros [=] | intros (? & ? & ?); (discriminate || congruence)]; fail);
    try (split; [intros _; repeat split; lia | reflexivity ]; fail).
  - rewrite Pos.compare_cont_spec; cbn.
    destruct (Z.compare_spec ea eb), (Pos.compare_spec ma mb); cbn;
      (split; [intros [=] | intros (_ & _ & [= ? ?])]; try lia; try reflexivity);
      repeat split; f_equal; try f_equal; lia.
  - rewrite Pos.compare_cont_spec; cbn.
    destruct (Z.compare_spec ea eb), (Pos.compare_spec ma mb); cbn;
      (split; [intros [=] | intros (_ & _ & [= ? ?])]; try lia; try reflexivity);
      repeat split; f_equal; try f_equal; lia.
Qed.

Lemma SFcompare_total (a b : float) :
  is_nan a = false -> is_nan b = false -> exists c, SFcompare a b = Some c.
Proof.
  destruct a as [sa|sa| |sa ma ea], b as [sb|sb| |sb mb eb];
    cbn; intros; try discriminate; eauto.
Qed.

Lemma lex_lt_trichotomy (p q : Z * Z * Z) :
  lex_lt p q \/ p = q \/ lex_lt q p.
Proof.
  destruct p as [[a b] c], q as [[a' b'] c']; unfold lex_lt.
  destruct (Z.lt_trichotomy a a') as [?|[->|?]]; [lia| |lia].
  destruct (Z.lt_trichotomy b b') as [?|[->|?]]; [lia| |lia].
  destruct (Z.lt_trichotomy c c') as [?|[->|?]]; [lia| |lia].
  right; left; reflexivity.
Qed.

Lemma lex_lt_irrefl (p : Z * Z * Z) : ~ lex_lt p p.
Proof. destruct p as [[a b] c]; unfold lex_lt; lia. Qed.

Lemma lex_lt_trans (p q r : Z * Z * Z) : lex_lt p q -> lex_lt q r -> lex_lt p r.
Proof.
  destruct p as [[a b] c], q as [[a' b'] c'], r as [[a'' b''] c''].
  unfold lex_lt; lia.
Qed.

Lemma lex_lt_asym (p q : Z * Z * Z) : lex_lt p q -> ~ lex_lt q p.
Proof. intros H1 H2. exact (lex_lt_irrefl _ (lex_lt_trans _ _ _ H1 H2)). Qed.

(** The comparisons, read on ranks. *)

Lemma float_lt_spec (a b : float) :
  float_lt a b = true <-> is_nan a = false /\ is_nan b = false /\ lex_lt (rank a) (rank b).
Proof.
  unfold float_lt, SFltb. rewrite <- SFcompare_Lt.
  destruct (SFcompare a b) as [[]|]; split; congruence.
Qed.

Lemma float_eq_spec (a b : float) :
  float_eq a b = true <-> is_nan a = false /\ is_nan b = false /\ rank a = rank b.
Proof.
  unfold float_eq, SFeqb. rewrite <- SFcompare_Eq.
  destruct (SFcompare a b) as [[]|]; split; congruence.
Qed.

Lemma float_le_spec (a b : float) :
  float_le a b = true <->
  is_nan a = false /\ is_nan b = false /\ (lex_lt (rank a) (rank b) \/ rank a = rank b).
Proof.
  unfold float_le, SFleb.
  destruct (SFcompare a b) as [[]|] eqn:E.
  - apply SFcompare_Eq in E. tauto.
  - apply SFcompare_Lt in E. tauto.
  - split; [discriminate|]. intros (Ha & Hb & [H|H]).
    + assert (SFcompare a b = Some Lt) by (apply SFcompare_Lt; tauto). congruence.
    + assert (SFcompare a b = Some Eq) by (apply SFcompare_Eq; tauto). congruence.
  - split; [discriminate|]. intros (Ha & Hb & _).
    destruct (SFcompare_total a b Ha Hb); congruence.
Qed.

Lemma float_gt_spec (a b : float) :
  float_gt a b = true <-> is_nan a = false /\ is_nan b = false /\ lex_lt (rank b) (rank a).
Proof. unfold float_gt. change (SFltb b a) with (float_lt b a). rewrite float_lt_spec. tauto. Qed.

Lemma float_ge_spec (a b : float) :
  float_ge a b = true <->
  is_nan a = false /\ is_nan b = false /\ (lex_lt (rank b) (rank a) \/ rank a = rank b).
Proof.
  unfold float_ge. change (SFleb b a) with (float_le b a). rewrite float_le_spec.
  split; intros (? & ? & [?|?]); repeat split; auto.
Qed.

Lemma float_lt_false (a b : float) :
  is_nan a = false -> is_nan b = false -> float_lt a b = false -> float_ge a b = true.
Proof.
  intros Ha Hb H. apply float_ge_spec. repeat split; auto.
  destruct (lex_lt_trichotomy (rank a) (rank b)) as [Hl|[He|Hg]]; auto.
  assert (float_lt a b = true) by (apply float_lt_spec; auto). congruence.
Qed.

Lemma float_ge_false (a b : float) :
  is_nan a = false -> is_nan b = false -> float_ge a b = false -> float_lt a b = true.
Proof.
  intros Ha Hb H. apply float_lt_spec. repeat split; auto.
  destruct (lex_lt_trichotomy (rank a) (rank b)) as [Hl|[He|Hg]]; auto;
    assert (float_ge a b = true) by (apply float_ge_spec; auto); congruence.
Qed.

Lemma float_le_refl (a : float) : is_nan a = false -> float_le a a = true.
Proof. intros. apply float_le_spec; auto. Qed.

Lemma float_le_trans (a b c : float) : float_le a b = true -> float_le b c = true -> float_le a c = true.
Proof.
  rewrite !float_le_spec. intros (Ha & Hb & H1) (_ & Hc & H2). repeat split; auto.
  destruct H1 as [H1|H1], H2 as [H2|H2].
  - left; eapply lex_lt_trans; eauto.
  - left; congruence.
  - left; congruence.
  - right; congruence.
Qed.

Lemma float_lt_le_trans (a b c : float) : float_lt a b = true -> float_le b c = true -> float_lt a c = true.
Proof.
  rewrite !float_lt_spec, float_le_spec. intros (Ha & Hb & H1) (_ & Hc & H2). repeat split; auto.
  destruct H2 as [H2|H2].
  - eapply lex_lt_trans; eauto.
  - congruence.
Qed.

Lemma float_le_lt_trans (a b c : float) : float_le a b = true -> float_lt b c = true -> float_lt a c = true.
Proof.
  rewrite !float_lt_spec, float_le_spec. intros (Ha & Hb & H1) (_ & Hc & H2). repeat split; auto.
  destruct H1 as [H1|H1].
  - eapply lex_lt_trans; eauto.
  - congruence.
Qed.

Lemma float_lt_le (a b : float) : float_lt a b = true -> float_le a b = true.
Proof. rewrite float_lt_spec, float_le_spec. tauto. Qed.

Lemma float_lt_not_ge (a b : float) : float_lt a b = true -> float_ge a b = false.
Proof.
  rewrite float_lt_spec. intros (Ha & Hb & H).
  destruct (float_ge a b) eqn:E; [|reflexivity].
  apply float_ge_spec in E as (_ & _ & [E|E]).
  - destruct (lex_lt_asym _ _ H E).
  - rewrite E in H. destruct (lex_lt_irrefl _ H).
Qed.

Lemma float_eq_nan_r (a : float) : float_eq a nan = false.
Proof. unfold float_eq, SFeqb, nan. rewrite SFcompare_nan_r. reflexivity. Qed.

Lemma float_lt_nan_l (a : float) : float_lt nan a = false.
Proof. reflexivity. Qed.

Lemma float_lt_nan_r (a : float) : float_lt a nan = false.
Proof. unfold float_lt, SFltb, nan. rewrite SFcompare_nan_r. reflexivity. Qed.

Lemma float_le_nan_l (a : float) : float_le nan a = false.
Proof. reflexivity. Qed.

Lemma float_le_nan_r (a : float) : float_le a nan = false.
Proof. unfold float_le, SFleb, nan. rewrite SFcompare_nan_r. reflexivity. Qed.

Lemma float_eq_sym (a b : float) : float_eq a b = true -> float_eq b a = true.
Proof. rewrite !float_eq_spec. intros (? & ? & ?). auto. Qed.

Lemma float_eq_not_lt (a b : float) : float_eq a b = true -> float_lt a b = false.
Proof.
  rewrite float_eq_spec. intros (Ha & Hb & H).
  destruct (float_lt a b) eqn:E; [|reflexivity].
  apply float_lt_spec in E as (_ & _ & E). rewrite H in E.
  destruct (lex_lt_irrefl _ E).
Qed.

Lemma float_eq_ge (a b : float) : float_eq a b = true -> float_ge a b = true.
Proof. rewrite float_eq_spec, float_ge_spec. intros (? & ? & ?). auto. Qed.

Lemma float_lt_finite_inf (p : float) : is_finite p = true -> float_lt p inf = true.
Proof. destruct p as [[]|[]| |[] m e]; cbn; intros; try discriminate; reflexivity. Qed.

Lemma float_ge_finite_inf (p : float) : is_finite p = true -> float_ge p inf = false.
Proof. destruct p as [[]|[]| |[] m e]; cbn; intros; try discriminate; reflexivity. Qed.

Lemma float_ge_inf (p : float) : float_ge p inf = true -> p = inf.
Proof.
  destruct p as [[]|[]| |[] m e]; intros H; try reflexivity;
    vm_compute in H; discriminate H.
Qed.

Lemma float_le_zero_fabs (a : float) : is_nan a = false -> float_le zero (fabs a) = true.
Proof. destruct a as [s|s| |s m e]; cbn; intros; try discriminate; reflexivity. Qed.

Lemma float_eq_fabs_inf (a : float) : float_eq (fabs a) inf = is_inf a.
Proof. destruct a as [s|s| |s m e]; reflexivity. Qed.

Lemma is_finite_not_nan (a : float) : is_finite a = true -> is_nan a = false.
Proof. destruct a; cbn; congruence. Qed.

End FloatOrder.

(** ** Rounding never invents a NaN *)

Section Rounding.

Lemma shr_1_nonneg (mrs : shr_record) : 0 <= shr_m mrs -> 0 <= shr_m (shr_1 mrs).
Proof.
  destruct mrs as [m r s]; cbn. destruct m as [|[p|p|]|[p|p|]]; cbn; lia.
Qed.

Lemma iter_shr_1_nonneg (p : positive) (mrs : shr_record) :
  0 <= shr_m mrs -> 0 <= shr_m (SpecFloat.iter_pos shr_1 p mrs).
Proof.
  revert mrs. induction p as [p IH|p IH|]; intros mrs H; cbn.
  - apply IH, IH, shr_1_nonneg, H.
  - apply IH, IH, H.
  - apply shr_1_nonneg, H.
Qed.

Lemma shr_nonneg (mrs : shr_record) (e n : Z) :
  0 <= shr_m mrs -> 0 <= shr_m (shr mrs e n).1.
Proof.
  intros H. destruct n; cbn; auto. apply iter_shr_1_nonneg, H.
Qed.

Lemma shr_fexp_nonneg (m e : Z) (l : location) :
  0 <= m -> 0 <= shr_m (shr_fexp prec emax m e l).1.
Proof.
  intros H. unfold shr_fexp. apply shr_nonneg.
  destruct l as [|[]]; exact H.
Qed.

Lemma round_nearest_even_nonneg (m : Z) (l : location) :
  0 <= m -> 0 <= round_nearest_even m l.
Proof.
  intros H. destruct l as [|[]]; cbn; try lia. destruct (Z.even m); lia.
Qed.

Lemma binary_round_aux_not_nan (sx : bool) (mx ex : Z) (lx : location) :
  0 <= mx -> is_nan (binary_round_aux prec emax sx mx ex lx) = false.
Proof.
  intros H. unfold binary_round_aux.
  pose proof (shr_fexp_nonneg mx ex lx H) as H1.
  destruct (shr_fexp prec emax mx ex lx) as [mrs' e']. cbn [fst] in H1.
  pose proof (shr_fexp_nonneg _ e' loc_Exact
    (round_nearest_even_nonneg _ (loc_of_shr_record mrs') H1)) as H2.
  destruct (shr_fexp prec emax _ e' loc_Exact) as [mrs'' e'']. cbn [fst] in H2.
  destruct (shr_m mrs'') as [|m|m]; [reflexivity| |lia].
  destruct (e'' <=? emax - prec); reflexivity.
Qed.

Lemma binary_normalize_not_nan (m e : Z) (szero : bool) :
  is_nan (binary_normalize prec emax m e szero) = false.
Proof.
  destruct m as [|m|m]; cbn [binary_normalize]; [reflexivity| |];
    unfold binary_round;
    destruct (shl_align _ _ _) as [mz ez];
    apply binary_round_aux_not_nan; lia.
Qed.

Lemma sub_finite_not_nan (a b : float) :
  is_finite a = true -> is_finite b = true -> is_nan (sub a b) = false.
Proof.
  destruct a as [sa|sa| |sa ma ea], b as [sb|sb| |sb mb eb];
    cbn [is_finite]; try discriminate; intros _ _; unfold sub; cbn [SFsub].
  - destruct sa, sb; reflexivity.
  - reflexivity.
  - reflexivity.
  - apply binary_normalize_not_nan.
Qed.

End Rounding.

(** ** Arrays *)

Section Arrays.
Context {A : Type}.
Implicit Types (arr : ndarray A) (shp b c : list Z).

Lemma normalize_axis_range (n i i' : Z) :
  normalize_axis n i = Some i' -> 0 <= i' < n.
Proof.
  unfold normalize_axis. repeat case_decide; intros [= <-]; lia.
Qed.

Lemma elem_of_ndindex shp c :
  c ∈ ndindex shp <-> Forall2 (fun n i => 0 <= i < n) shp c.
Proof.
  revert c. induction shp as [|n shp IH]; intros c; cbn.
  - rewrite list_elem_of_singleton. split.
    + intros ->. constructor.
    + intros H. by inversion H.
  - rewrite list_elem_of_bind. split.
    + intros (i & Hc & Hi). apply list_elem_of_bind in Hc as (c' & Hc & Hc').
      apply list_elem_of_singleton in Hc as ->.
      apply elem_of_seqZ in Hi. constructor; [lia|]. by apply IH.
    + intros H. inversion H as [|n' i shp' c' Hi Hc']; subst.
      exists i. split; [|apply elem_of_seqZ; lia].
      apply list_elem_of_bind. exists c'. split; [apply list_elem_of_singleton; done|].
      by apply IH.
Qed.

Lemma normalize_index_ndindex shp b c :
  normalize_index shp b = Some c -> c ∈ ndindex shp.
Proof.
  rewrite elem_of_ndindex. revert b c.
  induction shp as [|n shp IH]; intros [|i b] c; cbn; try discriminate.
  - intros [= <-]. constructor.
  - destruct (normalize_axis n i) as [i'|] eqn:Hi; [|discriminate].
    destruct (normalize_index shp b) as [c'|] eqn:Hc; [|discriminate].
    intros [= <-]. constructor; [by eapply normalize_axis_range|by eapply IH].
Qed.

Lemma normalize_index_id shp c :
  c ∈ ndindex shp -> normalize_index shp c = Some c.
Proof.
  rewrite elem_of_ndindex. induction 1 as [|n i shp c Hi _ IH]; cbn; [done|].
  unfold normalize_axis. rewrite decide_True by lia. by rewrite IH.
Qed.

Lemma dense_lookup shp arr c :
  dense shp arr -> (is_Some (data arr !! c) <-> c ∈ ndindex shp).
Proof.
  intros [_ Hdom]. rewrite <- elem_of_dom, Hdom. apply elem_of_list_to_set.
Qed.

Lemma dense_getitem shp arr b c :
  dense shp arr -> normalize_index shp b = Some c ->
  exists v, data arr !! c = Some v /\ getitem arr b = Ok v.
Proof.
  intros Hd Hb. pose proof Hd as [Hs _].
  destruct (proj2 (dense_lookup shp arr c Hd)) as [v Hv];
    [by eapply normalize_index_ndindex|].
  exists v. split; [done|]. unfold getitem. by rewrite Hs, Hb, Hv.
Qed.

Lemma getitem_Ok arr b v :
  getitem arr b = Ok v <->
  exists c, normalize_index (shape arr) b = Some c /\ data arr !! c = Some v.
Proof.
  unfold getitem. destruct (normalize_index (shape arr) b) as [c|].
  - destruct (data arr !! c) as [v'|] eqn:E.
    + split; [intros [= ->]; eauto|]. intros (c' & [= <-] & Hv). congruence.
    + split; [discriminate|]. intros (c' & [= <-] & Hv). congruence.
  - split; [discriminate|]. intros (c' & [=] & _).
Qed.

Lemma setitem_Ok arr b v arr' :
  setitem arr b v = Ok arr' <->
  exists c, normalize_index (shape arr) b = Some c /\ is_Some (data arr !! c) /\
            arr' = mk_ndarray (shape arr) (<[c := v]> (data arr)).
Proof.
  unfold setitem. destruct (normalize_index (shape arr) b) as [c|].
  - destruct (data arr !! c) as [v'|] eqn:E.
    + split; [intros [= <-]; eauto 6|]. intros (c' & [= <-] & _ & ->). done.
    + split; [discriminate|]. intros (c' & [= <-] & [? Hv] & _). congruence.
  - split; [discriminate|]. intros (c' & [=] & _).
Qed.

Lemma setitem_dense shp arr b v arr' :
  dense shp arr -> setitem arr b v = Ok arr' -> dense shp arr'.
Proof.
  intros [Hs Hdom] (c & Hb & Hc & ->)%setitem_Ok. split; [done|]. cbn.
  rewrite dom_insert_L, <- Hdom. apply elem_of_dom in Hc.
  apply set_eq. intros c'. rewrite elem_of_union, elem_of_singleton.
  split; [intros [->|?]; done|auto].
Qed.

Lemma full_Ok shp (v : A) :
  Forall (fun n => 0 <= n) shp ->
  full shp v = Ok (mk_ndarray shp (list_to_map ((fun c => (c, v)) <$> ndindex shp))).
Proof.
  intros H. unfold full.
  replace (forallb (fun n => 0 <=? n) shp) with true; [done|].
  symmetry. apply forallb_forall. intros n Hn%list_elem_of_In.
  rewrite Forall_forall in H. apply Z.leb_le. auto.
Qed.

Lemma full_inv shp (v : A) arr :
  full shp v = Ok arr ->
  Forall (fun n => 0 <= n) shp /\
  arr = mk_ndarray shp (list_to_map ((fun c => (c, v)) <$> ndindex shp)).
Proof.
  unfold full. destruct (forallb _ shp) eqn:E; [|discriminate].
  intros [= <-]. split; [|done].
  apply Forall_forall. intros n Hn%list_elem_of_In.
  rewrite forallb_forall in E. apply Z.leb_le. auto.
Qed.

Lemma full_lookup shp (v w : A) arr c :
  full shp v = Ok arr -> data arr !! c = Some w -> w = v.
Proof.
  intros [_ ->]%full_inv. cbn. intros H%elem_of_list_to_map_2.
  apply list_elem_of_fmap in H as (c' & [= _ ->] & _). done.
Qed.

Lemma full_dense shp (v : A) arr : full shp v = Ok arr -> dense shp arr.
Proof.
  intros [_ ->]%full_inv. split; [done|]. cbn.
  rewrite dom_list_to_map_L, <- list_fmap_compose. f_equal.
  apply list_fmap_id.
Qed.

End Arrays.

(** ** Binary search over sorted edges *)

Section Search.
Implicit Types (arr : list float) (key : float).

Lemma side_cmp_right (mid key : float) :
  is_nan mid = false -> is_nan key = false ->
  side_cmp side_right mid key = float_le mid key.
Proof.
  intros Hm Hk. unfold side_cmp, less. rewrite Hm. cbn. rewrite orb_false_r.
  destruct (float_lt key mid) eqn:E; cbn.
  - symmetry. apply (float_lt_not_ge _ _ E).
  - symmetry. apply (float_lt_false _ _ Hk Hm E).
Qed.

Lemma float_le_false_lt (a b : float) :
  is_nan a = false -> is_nan b = false -> float_le a b = false -> float_lt b a = true.
Proof. intros Ha Hb H. by apply float_ge_false. Qed.

Lemma midpoint_bounds (lo hi : nat) :
  (lo < hi)%nat -> (lo <= lo + (hi - lo) / 2 < hi)%nat.
Proof.
  intros H. assert ((hi - lo) / 2 < hi - lo)%nat by (apply Nat.div_lt; lia). lia.
Qed.

Lemma binsearch_right_spec arr key (lo hi : nat) :
  sorted arr -> is_nan key = false ->
  (lo <= hi <= length arr)%nat ->
  (forall i, (i < lo)%nat -> float_le (nth i arr nan) key = true) ->
  (forall i, (hi <= i < length arr)%nat -> float_lt key (nth i arr nan) = true) ->
  (lo <= binsearch side_right arr key lo hi <= hi)%nat /\
  (forall i, (i < binsearch side_right arr key lo hi)%nat ->
     float_le (nth i arr nan) key = true) /\
  (forall i, (binsearch side_right arr key lo hi <= i < length arr)%nat ->
     float_lt key (nth i arr nan) = true).
Proof.
  intros Hsorted Hkey.
  funelim (binsearch side_right arr key lo hi); intros Hr Hlo Hhi.
  - (* the interval is empty *)
    assert (min_idx = max_idx) as -> by lia. repeat split; auto.
  - (* arr[mid] <= key: continue to the right of mid *)
    pose proof (midpoint_bounds _ _ l) as Hmid.
    set (mid := (min_idx + (max_idx - min_idx) / 2)%nat) in *.
    assert (Hm : is_nan (nth mid arr nan) = false).
    { specialize (Hsorted mid mid). apply float_le_spec in Hsorted; [tauto|lia]. }
    rewrite side_cmp_right in Heq by done.
    destruct (H arr key_val (S mid) max_idx Hsorted Hkey eq_refl eq_refl)
      as (Hb & Hl & Hg); [lia| |done|].
    + intros i Hi. apply float_le_trans with (nth mid arr nan); [|done].
      apply Hsorted. lia.
    + repeat split; auto; lia.
  - (* key < arr[mid]: continue to the left of mid *)
    pose proof (midpoint_bounds _ _ l) as Hmid.
    set (mid := (min_idx + (max_idx - min_idx) / 2)%nat) in *.
    assert (Hm : is_nan (nth mid arr nan) = false).
    { specialize (Hsorted mid mid). apply float_le_spec in Hsorted; [tauto|lia]. }
    rewrite side_cmp_right in Heq by done.
    apply float_le_false_lt in Heq; [|done..].
    destruct (H arr key_val min_idx mid Hsorted Hkey eq_refl eq_refl)
      as (Hb & Hl & Hg); [lia|done| |].
    + intros i Hi. apply float_lt_le_trans with (nth mid arr nan); [done|].
      apply Hsorted. lia.
    + repeat split; auto; lia.
Qed.

(** A NaN key is past every edge. *)
Lemma binsearch_right_nan arr key (lo hi : nat) :
  sorted arr -> is_nan key = true ->
  (lo <= hi <= length arr)%nat ->
  binsearch side_right arr key lo hi = hi.
Proof.
  intros Hsorted Hkey.
  funelim (binsearch side_right arr key lo hi); intros Hr.
  - lia.
  - pose proof (midpoint_bounds _ _ l) as Hmid.
    apply (H arr key_val _ max_idx Hsorted Hkey eq_refl eq_refl). lia.
  - pose proof (midpoint_bounds _ _ l) as Hmid.
    set (mid := (min_idx + (max_idx - min_idx) / 2)%nat) in *.
    assert (Hm : is_nan (nth mid arr nan) = false).
    { specialize (Hsorted mid mid). apply float_le_spec in Hsorted; [tauto|lia]. }
    destruct key_val; try discriminate.
    unfold side_cmp, less in Heq. rewrite Hm in Heq. discriminate.
Qed.

End Search.

(** ** discretize *)

Section Discretize.
Implicit Types (a : list float) (value : float).

Lemma float_lt_trans (x y z : float) : float_lt x y = true -> float_lt y z = true -> float_lt x z = true.
Proof. intros H1 H2. eapply float_lt_le_trans; [done|]. by apply float_lt_le. Qed.

Lemma strictly_increasing_cons (x : float) a :
  strictly_increasing (x :: a) = true ->
  strictly_increasing a = true /\
  forall j, (j < length a)%nat -> float_lt x (nth j a nan) = true.
Proof.
  revert x. induction a as [|y a IH]; intros x H.
  - split; [done|]. cbn. lia.
  - cbn [strictly_increasing] in H. apply andb_true_iff in H as [Hxy Ha].
    change (strictly_increasing (y :: a) = true) in Ha.
    split; [done|]. intros [|j] Hj; cbn; [done|].
    destruct (IH y Ha) as [_ Hy]. eapply float_lt_trans; [done|].
    apply Hy. cbn in Hj. lia.
Qed.

Lemma strictly_increasing_lt a (i j : nat) :
  strictly_increasing a = true -> (i < j < length a)%nat ->
  float_lt (nth i a nan) (nth j a nan) = true.
Proof.
  revert i j. induction a as [|x a IH]; intros i j H Hij; [cbn in Hij; lia|].
  destruct (strictly_increasing_cons x a H) as [Ha Hx].
  destruct i as [|i], j as [|j]; cbn in Hij |- *; try lia.
  - apply Hx. lia.
  - apply IH; [done|lia].
Qed.

Lemma strictly_increasing_sorted a :
  strictly_increasing a = true ->
  forallb (fun x => negb (is_nan x)) a = true ->
  sorted a.
Proof.
  intros Hinc Hreal i j Hij.
  destruct (decide (i = j)) as [->|Hne].
  - apply float_le_refl. rewrite forallb_forall in Hreal.
    apply negb_true_iff, Hreal, nth_In. lia.
  - apply float_lt_le, strictly_increasing_lt; [done|lia].
Qed.

Lemma check_array_monotonic_increasing a :
  strictly_increasing a = true -> check_array_monotonic a = 1.
Proof.
  destruct a as [|last [|next rest]]; [done..|]. intros H.
  destruct (strictly_increasing_cons _ _ H) as [Hrest Hlast].
  assert (Hln : float_lt last next = true) by (apply (Hlast 0%nat); cbn; lia).
  cbn [check_array_monotonic skip_repeated].
  assert (float_eq next last = false) as ->.
  { destruct (float_eq next last) eqn:E; [|done].
    apply float_eq_sym, float_eq_not_lt in E. congruence. }
  rewrite Hln.
  assert (no_descent next rest = true) as ->; [|done].
  clear -Hrest. revert next Hrest.
  induction rest as [|y rest IH]; intros next H; [done|].
  destruct (strictly_increasing_cons _ _ H) as [Hrest Hnext].
  cbn [no_descent].
  assert (float_lt next y = true) as Hny by (apply (Hnext 0%nat); cbn; lia).
  assert (float_gt next y = false) as ->; [|by apply IH].
  unfold float_gt. change (SFltb y next) with (float_lt y next).
  destruct (float_lt y next) eqn:E; [|done].
  pose proof (float_lt_not_ge _ _ Hny) as Hge. apply float_lt_le in E.
  unfold float_ge in Hge. change (SFleb y next) with (float_le y next) in Hge. congruence.
Qed.

Lemma digitize_increasing a value :
  strictly_increasing a = true ->
  digitize value a = Ok (searchsorted a value side_right).
Proof.
  intros H. unfold digitize. by rewrite (check_array_monotonic_increasing a H).
Qed.

(** C4: for strictly increasing real bin edges [bins[0] < ... < bins[k]],
    [discretize] returns exactly when [bins[0] <= value < bins[k]]; for a
    real [value] that is: it raises exactly when [value < bins[0]] or
    [value >= bins[k]]. When it returns, it returns the one bin index [i]
    in [0 .. k-1] with [bins[i] <= value < bins[i+1]]. A value equal to the
    first edge lands in bin 0 (when there is a bin at all), and a value
    equal to the last edge raises. *)
Theorem discretize_spec (self : FeatureDimension.t) value (k : nat) :
  length (FeatureDimension.bins self) = S k ->
  strictly_increasing (FeatureDimension.bins self) = true ->
  forallb (fun x => negb (is_nan x)) (FeatureDimension.bins self) = true ->
  (raises (FeatureDimension.discretize self value) = false <->
     float_le (nth 0 (FeatureDimension.bins self) nan) value = true /\
     float_lt value (nth k (FeatureDimension.bins self) nan) = true) /\
  (is_nan value = false ->
     (raises (FeatureDimension.discretize self value) = true <->
        float_lt value (nth 0 (FeatureDimension.bins self) nan) = true \/
        float_ge value (nth k (FeatureDimension.bins self) nan) = true)) /\
  (raises (FeatureDimension.discretize self value) = false ->
     exists i : nat,
       FeatureDimension.discretize self value = Ok (Z.of_nat i) /\
       (i < k)%nat /\
       float_le (nth i (FeatureDimension.bins self) nan) value = true /\
       float_lt value (nth (S i) (FeatureDimension.bins self) nan) = true /\
       forall j : nat, (j < k)%nat ->
         float_le (nth j (FeatureDimension.bins self) nan) value = true ->
         float_lt value (nth (S j) (FeatureDimension.bins self) nan) = true -> j = i) /\
  (float_eq value (nth 0 (FeatureDimension.bins self) nan) = true -> (1 <= k)%nat ->
     FeatureDimension.discretize self value = Ok 0) /\
  (float_eq value (nth k (FeatureDimension.bins self) nan) = true ->
     raises (FeatureDimension.discretize self value) = true).
Proof.
  set (bins := FeatureDimension.bins self). intros Hlen Hinc Hreal.
  pose proof (strictly_increasing_sorted bins Hinc Hreal) as Hsorted.
  set (r := searchsorted bins value side_right).
  assert (Hd : FeatureDimension.discretize self value =
               if decide (r = 0%nat \/ r = S k)
               then Raise (Exception "value outside of bins")
               else Ok (Z.of_nat (r - 1))).
  { unfold FeatureDimension.discretize. fold bins.
    rewrite (digitize_increasing bins value Hinc). fold r. cbn [mbind result_bind].
    rewrite Hlen. case_decide as Hin; case_decide as Hor; try done.
    - exfalso. apply Hor. rewrite !elem_of_cons in Hin.
      destruct Hin as [?|[?|Hin]]; auto. by apply elem_of_nil in Hin.
    - exfalso. apply Hin. destruct Hor as [->| ->]; [left|right; left].
    - f_equal. lia. }
  assert (Hraise : raises (FeatureDimension.discretize self value) = true <->
                   r = 0%nat \/ r = S k).
  { rewrite Hd. case_decide; cbn; split; (done || congruence). }
  destruct (is_nan value) eqn:Hvalue.
  - (* a NaN lands past the last edge *)
    assert (Hr : r = S k).
    { unfold r, searchsorted. rewrite <- Hlen.
      apply binsearch_right_nan; [done..|lia]. }
    assert (Hyes : raises (FeatureDimension.discretize self value) = true)
      by (apply Hraise; by right).
    destruct value; try discriminate.
    split; [|split; [done|split; [|split]]].
    + rewrite Hyes. split; [done|]. intros [_ H]. by rewrite float_lt_nan_l in H.
    + by rewrite Hyes.
    + intros H. apply float_eq_spec in H as [H _]. discriminate.
    + intros _. exact Hyes.
  - destruct (binsearch_right_spec bins value 0 (length bins) Hsorted Hvalue)
      as (Hr & Hbelow & Habove); [lia|intros; lia|intros; lia|].
    fold (searchsorted bins value side_right) in Hr, Hbelow, Habove.
    fold r in Hr, Hbelow, Habove.
    assert (Hno : forall u v : float,
              float_lt u v = true -> float_le v u = true -> False).
    { intros u v H1 H2. pose proof (float_lt_not_ge _ _ H1) as H3.
      unfold float_ge in H3. change (SFleb v u) with (float_le v u) in H3.
      congruence. }
    assert (Hiff : r = 0%nat \/ r = S k <->
                   float_lt value (nth 0 bins nan) = true \/
                   float_ge value (nth k bins nan) = true).
    { split.
      - intros [H0|Hk].
        + left. apply Habove. lia.
        + right. apply Hbelow. lia.
      - intros [H0|Hk].
        + left. destruct (decide (r = 0%nat)); [done|].
          exfalso. apply (Hno _ _ H0), Hbelow. lia.
        + right. destruct (decide (r = S k)); [done|].
          exfalso. eapply Hno; [|exact Hk]. apply Habove. lia. }
    assert (Hok : raises (FeatureDimension.discretize self value) = false <->
                  ~ (r = 0%nat \/ r = S k)).
    { rewrite <- Hraise. destruct (raises _); split; (done || congruence). }
    split; [|split; [|split; [|split]]].
    + rewrite Hok. split.
      * intros Hr'. split; [apply Hbelow|apply Habove]; lia.
      * intros [H0 Hk]. rewrite Hiff. intros [H|H].
        -- by apply (Hno _ _ H).
        -- by apply (Hno _ _ Hk).
    + intros _. by rewrite Hraise.
    + intros Hr'%Hok.
      exists (r - 1)%nat. rewrite Hd, decide_False by done.
      split; [done|]. split; [lia|]. split; [apply Hbelow; lia|].
      split; [apply Habove; lia|].
      intros j Hj Hle Hlt.
      destruct (decide (r <= j)%nat).
      { exfalso. eapply Hno; [|exact Hle]. apply Habove. lia. }
      destruct (decide (S j < r)%nat).
      { exfalso. apply (Hno _ _ Hlt), Hbelow. done. }
      lia.
    + intros Heq Hk.
      assert (Hr' : ~ (r = 0%nat \/ r = S k)).
      { rewrite Hiff. intros [H|H].
        - rewrite (float_eq_not_lt _ _ Heq) in H. done.
        - pose proof (strictly_increasing_lt bins 0 k Hinc) as Hlt.
          eapply Hno; [apply Hlt; lia|].
          eapply float_le_trans; [exact H|]. apply float_eq_ge, float_eq_sym, Heq. }
      rewrite Hd, decide_False by done.
      assert (r = 1%nat) as ->; [|done].
      destruct (decide (2 <= r)%nat); [|lia].
      exfalso. pose proof (strictly_increasing_lt bins 0 1 Hinc) as Hlt.
      eapply Hno; [apply Hlt; lia|].
      eapply float_le_trans; [apply (Hbelow 1%nat); lia|].
      apply float_eq_ge, float_eq_sym, Heq.
    + intros Heq. apply Hraise, Hiff. right. by apply float_eq_ge.
Qed.

End Discretize.

(** ** Construction and placement *)

Import MapElites.

Section Placement.
Context `{P : Problem}.
Implicit Types (self : MapElites.t) (x : genotype) (b c : list Z).

Lemma init_Ok iterations random_solutions minimization self :
  __init__ iterations random_solutions minimization = Ok self ->
  well_formed self /\
  MapElites.minimization self = minimization /\
  (forall c p, data (performances self) !! c = Some p -> p = inf) /\
  (forall c g, data (solutions self) !! c = Some g -> g = (inf, inf)).
Proof.
  unfold __init__.
  destruct (negb _ || negb _); [discriminate|]. cbn.
  destruct (full _ (inf, inf)) as [sols|] eqn:Es; [|discriminate]. cbn.
  destruct (full _ inf) as [perfs|] eqn:Ep; [|discriminate]. cbn.
  intros [= <-]. cbn. repeat split.
  - by eapply full_dense.
  - by eapply full_dense.
  - by eapply full_dense.
  - by eapply full_dense.
  - intros c p Hp. by eapply full_lookup.
  - intros c g Hg. by eapply full_lookup.
Qed.

Lemma place_operator_Ok self (p q : float) :
  well_formed self ->
  call_operator (place_operator self) p q =
    Ok (if minimization self then float_lt p q else float_ge p q).
Proof. intros [-> _]. by destruct (minimization self). Qed.

(** What one call does to a well-formed archive, once the coordinates are
    known to be in range. *)
Lemma place_in_mapelites_spec self x b c :
  well_formed self ->
  map_x_to_b x = Ok b ->
  normalize_index (ft_bins (feature_dimensions self)) b = Some c ->
  exists incumbent,
    data (performances self) !! c = Some incumbent /\
    getitem (performances self) b = Ok incumbent /\
    place_in_mapelites self x =
      Ok (if (if minimization self then float_lt (performance_measure x) incumbent
              else float_ge (performance_measure x) incumbent)
          then mk (minimization self) (place_operator self) (iterations self)
                 (random_solutions self) (feature_dimensions self)
                 (mk_ndarray (shape (solutions self))
                    (<[c := x]> (data (solutions self))))
                 (mk_ndarray (shape (performances self))
                    (<[c := performance_measure x]> (data (performances self))))
          else self).
Proof.
  intros Hwf Hb Hc. pose proof Hwf as (Hop & Hs & Hp).
  destruct (dense_getitem _ _ _ _ Hp Hc) as (incumbent & Hinc & Hget).
  destruct (dense_getitem _ _ _ _ Hs Hc) as (g & Hg & _).
  exists incumbent. repeat split; [done..|].
  set (better := if minimization self then _ else _).
  unfold place_in_mapelites. rewrite Hb. cbn [mbind result_bind].
  rewrite Hget. cbn [mbind result_bind].
  rewrite (place_operator_Ok _ _ _ Hwf). fold better.
  destruct better; [|done].
  unfold setitem. rewrite (proj1 Hp), (proj1 Hs), Hc, Hinc, Hg. done.
Qed.

(** A call that returns had its coordinates in range. *)
Lemma place_in_mapelites_Ok_inv self x self' :
  well_formed self ->
  place_in_mapelites self x = Ok self' ->
  exists b c, map_x_to_b x = Ok b /\
    normalize_index (ft_bins (feature_dimensions self)) b = Some c.
Proof.
  intros (_ & _ & Hs & _). unfold place_in_mapelites.
  destruct (map_x_to_b x) as [b|]; [|discriminate]. cbn.
  destruct (getitem (performances self) b) as [inc|] eqn:E; [|discriminate].
  apply getitem_Ok in E as (c & Hc & _). rewrite Hs in Hc. eauto.
Qed.

Lemma place_in_mapelites_well_formed self x self' :
  well_formed self ->
  place_in_mapelites self x = Ok self' ->
  well_formed self' /\
  minimization self' = minimization self /\
  feature_dimensions self' = feature_dimensions self.
Proof.
  intros Hwf H.
  destruct (place_in_mapelites_Ok_inv _ _ _ Hwf H) as (b & c & Hb & Hc).
  destruct (place_in_mapelites_spec _ _ _ _ Hwf Hb Hc) as (inc & Hinc & _ & Hpl).
  rewrite Hpl in H. injection H as <-.
  destruct (if minimization self then _ else _); [|done].
  destruct Hwf as (Hop & [Hs1 Hs2] & [Hp1 Hp2]).
  assert (Hins : forall A (m : gmap (list Z) A) v, is_Some (m !! c) ->
            dom (<[c := v]> m) = dom m).
  { intros A m v Hm%elem_of_dom. rewrite dom_insert_L.
    apply set_eq. intros c'. rewrite elem_of_union, elem_of_singleton.
    split; [intros [->|?]; done|auto]. }
  assert (c ∈ ndindex (ft_bins (feature_dimensions self)))
    by (by eapply normalize_index_ndindex).
  repeat split; cbn; try done.
  - rewrite (Hins _ (data (solutions self))); [exact Hs2|].
    apply elem_of_dom. rewrite Hs2. by apply elem_of_list_to_set.
  - rewrite (Hins _ (data (performances self))); [exact Hp2|]. by rewrite Hinc.
Qed.

Lemma place_all_well_formed self xs self' :
  well_formed self ->
  place_all self xs = Ok self' ->
  well_formed self' /\
  minimization self' = minimization self /\
  feature_dimensions self' = feature_dimensions self.
Proof.
  revert self. induction xs as [|x xs IH]; intros self Hwf; cbn.
  - intros [= <-]. done.
  - destruct (place_in_mapelites self x) as [self1|] eqn:E; [|discriminate]. cbn.
    destruct (place_in_mapelites_well_formed _ _ _ Hwf E) as (Hwf1 & Hm & Hf).
    intros H. destruct (IH _ Hwf1 H) as (? & ? & ?).
    split; [done|split; congruence].
Qed.

(** Every archive the optimizer can hold is well formed. *)
Lemma reachable_well_formed iterations random_solutions minimization self0 xs self :
  __init__ iterations random_solutions minimization = Ok self0 ->
  place_all self0 xs = Ok self ->
  well_formed self.
Proof.
  intros (Hwf0 & _)%init_Ok Hall.
  by destruct (place_all_well_formed _ _ _ Hwf0 Hall) as [? _].
Qed.

(** A sequence of calls returns when every candidate maps to a cell of the
    grid. *)
Lemma place_all_total self xs :
  well_formed self ->
  (forall x, x ∈ xs -> exists b c, map_x_to_b x = Ok b /\
     normalize_index (ft_bins (feature_dimensions self)) b = Some c) ->
  exists self', place_all self xs = Ok self'.
Proof.
  revert self. induction xs as [|x xs IH]; intros self Hwf Hxs; cbn; [eauto|].
  destruct (Hxs x) as (b & c & Hb & Hc); [left|].
  destruct (place_in_mapelites_spec _ _ _ _ Hwf Hb Hc) as (inc & _ & _ & Hpl).
  destruct (place_in_mapelites self x) as [self1|] eqn:E; [|discriminate].
  cbn [mbind result_bind]. clear Hpl.
  destruct (place_in_mapelites_well_formed _ _ _ Hwf E) as (Hwf1 & _ & Hf).
  apply IH; [done|]. intros x' Hx'. rewrite Hf. apply Hxs. by right.
Qed.

(** Seeding is a sequence of placements. *)
Lemma generate_initial_population_places self rnd (pos : nat) :
  generate_initial_population self rnd pos =
    (self' ← place_all self (generated (random_solutions self) rnd pos).1;
     Ok (self', (generated (random_solutions self) rnd pos).2)).
Proof.
  unfold generate_initial_population.
  generalize (random_solutions self) as n. intros n. revert self pos.
  induction n as [|n IH]; intros self pos; cbn; [done|].
  destruct (generate_random_solution rnd pos) as [x pos1].
  destruct (generated n rnd pos1) as [xs pos2] eqn:E. cbn.
  destruct (place_in_mapelites self x) as [self1|]; cbn; [|done].
  by rewrite IH, E.
Qed.

End Placement.

(** ** The elitist invariant *)

Section Elitism.
Context `{P : Problem}.
Implicit Types (self : MapElites.t) (x : genotype) (b c : list Z).

Lemma at_least_as_good_refl (m : bool) (p : float) :
  is_nan p = false -> at_least_as_good m p p = true.
Proof. intros H. destruct m; cbn; by apply float_le_refl. Qed.

(** The winner of a comparison is at least as good as whatever the loser
    was at least as good as. *)
Lemma at_least_as_good_replace (m : bool) (p inc q : float) :
  (if m then float_lt p inc else float_ge p inc) = true ->
  at_least_as_good m inc q = true ->
  at_least_as_good m p q = true.
Proof.
  destruct m; cbn; intros H1 H2.
  - apply float_lt_le. by eapply float_lt_le_trans.
  - unfold float_ge in *. change (SFleb ?a ?b) with (float_le a b) in *. by eapply float_le_trans.
Qed.

Lemma at_least_as_good_keep (m : bool) (p inc : float) :
  is_nan p = false -> is_nan inc = false ->
  (if m then float_lt p inc else float_ge p inc) = false ->
  at_least_as_good m inc p = true.
Proof.
  destruct m; cbn; intros Hp Hi H.
  - apply (float_lt_false p inc Hp Hi H).
  - apply float_lt_le, (float_ge_false p inc Hp Hi H).
Qed.

Lemma better_not_nan (m : bool) (p inc : float) :
  (if m then float_lt p inc else float_ge p inc) = true -> is_nan p = false.
Proof.
  destruct m; [rewrite float_lt_spec|rewrite float_ge_spec]; tauto.
Qed.

Lemma place_in_mapelites_invariant self x self' seen :
  well_formed self -> no_nan_stored self -> dominates self seen ->
  place_in_mapelites self x = Ok self' ->
  no_nan_stored self' /\ dominates self' (x :: seen).
Proof.
  intros Hwf Hnn Hdom Hpl.
  destruct (place_in_mapelites_Ok_inv _ _ _ Hwf Hpl) as (b & c & Hb & Hc).
  destruct (place_in_mapelites_spec _ _ _ _ Hwf Hb Hc) as (inc & Hinc & _ & Hpl').
  rewrite Hpl' in Hpl. injection Hpl as <-.
  destruct (if minimization self then _ else _) eqn:Hbetter.
  - (* the candidate replaces the incumbent *)
    pose proof (better_not_nan _ _ _ Hbetter) as Hx.
    split.
    + intros c' p. cbn. rewrite lookup_insert. case_decide.
      * by intros [= <-].
      * apply Hnn.
    + intros x' b' c' Hx' Hb' Hc'.
      cbn [feature_dimensions minimization performances data] in Hc' |- *.
      rewrite lookup_insert. case_decide as Hcc.
      * subst c'. eexists. split; [done|]. intros Hreal.
        apply elem_of_cons in Hx' as [->|Hx'].
        { by apply at_least_as_good_refl. }
        destruct (Hdom _ _ _ Hx' Hb' Hc') as (p & Hp & Hgood).
        rewrite Hinc in Hp. injection Hp as <-.
        eapply at_least_as_good_replace; [done|]. by apply Hgood.
      * apply elem_of_cons in Hx' as [->|Hx'].
        { rewrite Hb in Hb'. injection Hb' as <-. congruence. }
        by eapply Hdom.
  - (* the incumbent stays *)
    split; [done|].
    intros x' b' c' Hx' Hb' Hc'.
    apply elem_of_cons in Hx' as [->|Hx']; [|by eapply Hdom].
    rewrite Hb in Hb'. injection Hb' as <-.
    rewrite Hc in Hc'. injection Hc' as <-.
    exists inc. split; [done|]. intros Hreal.
    apply at_least_as_good_keep; [done|by eapply Hnn|done].
Qed.

Lemma place_all_invariant self xs self' seen :
  well_formed self -> no_nan_stored self -> dominates self seen ->
  place_all self xs = Ok self' ->
  no_nan_stored self' /\ dominates self' (rev xs ++ seen).
Proof.
  revert self seen. induction xs as [|x xs IH]; intros self seen Hwf Hnn Hdom; cbn.
  - intros [= <-]. done.
  - destruct (place_in_mapelites self x) as [self1|] eqn:E; [|discriminate].
    cbn [mbind result_bind]. intros Hall.
    destruct (place_in_mapelites_well_formed _ _ _ Hwf E) as (Hwf1 & _ & _).
    destruct (place_in_mapelites_invariant self x self1 seen Hwf Hnn Hdom E)
      as (Hnn1 & Hdom1).
    rewrite <- app_assoc. cbn.
    apply (IH self1 (x :: seen)); auto.
Qed.

(** C2: starting from the freshly constructed archive, after any sequence
    of [place_in_mapelites] calls that returned, the cell of every
    candidate the sequence placed stores a performance at least as good,
    in the direction of the objective ([<=] under minimization, [>=] under
    maximization), as the performance computed for that candidate. The
    performance compared is a number: a NaN compares with nothing. *)
Theorem placement_is_monotonic
    (iterations random_solutions : nat) (minimization : bool)
    (self0 self : MapElites.t) (xs : list genotype) (x : genotype) (b c : list Z) :
  __init__ iterations random_solutions minimization = Ok self0 ->
  place_all self0 xs = Ok self ->
  x ∈ xs ->
  map_x_to_b x = Ok b ->
  normalize_index (shape (performances self)) b = Some c ->
  is_nan (performance_measure x) = false ->
  exists p, data (performances self) !! c = Some p /\
    at_least_as_good minimization p (performance_measure x) = true.
Proof.
  intros Hinit Hall Hx Hb Hc Hreal.
  destruct (init_Ok _ _ _ _ Hinit) as (Hwf0 & Hmin & Hinf & _).
  destruct (place_all_well_formed _ _ _ Hwf0 Hall) as (Hwf & Hmin' & Hfts).
  destruct (place_all_invariant self0 xs self []) as (_ & Hdom); auto.
  - intros c' p Hp. by rewrite (Hinf _ _ Hp).
  - intros x' b' c' Hx'. by apply not_elem_of_nil in Hx'.
  - destruct Hwf as (_ & _ & Hshape & _). rewrite Hshape in Hc.
    destruct (Hdom x b c) as (p & Hp & Hgood); auto.
    + rewrite app_nil_r. apply list_elem_of_In. apply -> in_rev.
      by apply list_elem_of_In.
    + exists p. split; [done|]. rewrite <- Hmin, <- Hmin'. by apply Hgood.
Qed.

(** C3: when the candidate's performance equals the incumbent's, a
    minimizing archive keeps the incumbent (the archive is unchanged), and
    a maximizing archive stores the candidate and its performance in the
    cell. *)
Theorem placement_tie_break self x b (incumbent : float) :
  well_formed self ->
  map_x_to_b x = Ok b ->
  getitem (performances self) b = Ok incumbent ->
  float_eq (performance_measure x) incumbent = true ->
  if minimization self
  then place_in_mapelites self x = Ok self
  else exists self',
    place_in_mapelites self x = Ok self' /\
    getitem (solutions self') b = Ok x /\
    getitem (performances self') b = Ok (performance_measure x).
Proof.
  intros Hwf Hb Hget Heq. pose proof Hwf as (_ & [Hs _] & [Hp _]).
  apply getitem_Ok in Hget as (c & Hc & Hinc). rewrite Hp in Hc.
  destruct (place_in_mapelites_spec _ _ _ _ Hwf Hb Hc) as (inc & Hinc' & _ & Hpl).
  rewrite Hinc in Hinc'. injection Hinc' as <-.
  destruct (minimization self).
  - by rewrite Hpl, (float_eq_not_lt _ _ Heq).
  - rewrite Hpl, (float_eq_ge _ _ Heq). eexists. split; [done|].
    unfold getitem. cbn. rewrite Hs, Hp, Hc, !lookup_insert_eq. done.
Qed.

(** C7: a call whose coordinates address a cell never raises. When the
    candidate beats the incumbent, the cell holds the candidate and its
    performance afterwards and every other cell of both grids is as
    before; when it does not, the archive is the same afterwards. *)
Theorem placement_frame self x b (incumbent : float) :
  well_formed self ->
  map_x_to_b x = Ok b ->
  getitem (performances self) b = Ok incumbent ->
  exists c better,
    normalize_index (shape (performances self)) b = Some c /\
    call_operator (place_operator self) (performance_measure x) incumbent
      = Ok better /\
    if (better : bool)
    then exists self',
      place_in_mapelites self x = Ok self' /\
      data (performances self') !! c = Some (performance_measure x) /\
      data (solutions self') !! c = Some x /\
      shape (performances self') = shape (performances self) /\
      shape (solutions self') = shape (solutions self) /\
      forall c', c' <> c ->
        data (performances self') !! c' = data (performances self) !! c' /\
        data (solutions self') !! c' = data (solutions self) !! c'
    else place_in_mapelites self x = Ok self.
Proof.
  intros Hwf Hb Hget. pose proof Hwf as (_ & [Hs _] & [Hp _]).
  apply getitem_Ok in Hget as (c & Hc & Hinc).
  exists c, (if minimization self then float_lt (performance_measure x) incumbent
             else float_ge (performance_measure x) incumbent).
  split; [done|]. split; [by apply place_operator_Ok|].
  rewrite Hp in Hc.
  destruct (place_in_mapelites_spec _ _ _ _ Hwf Hb Hc) as (inc & Hinc' & _ & Hpl).
  rewrite Hinc in Hinc'. injection Hinc' as <-.
  destruct (if minimization self then _ else _); [|done].
  eexists. split; [done|]. cbn. rewrite !lookup_insert_eq.
  repeat split; try done; by rewrite lookup_insert_ne.
Qed.

End Elitism.

(** ** Placement on the concrete optimizer *)

Section PlacementExamples.
Import Example.

(** The comparison against the sentinel of an empty cell, in the two
    directions. *)
Lemma sentinel_comparison (p : float) :
  is_finite p = true ->
  call_operator operator_lt p inf = Ok true /\
  call_operator operator_ge p inf = Ok false.
Proof.
  intros H. cbn. by rewrite float_lt_finite_inf, float_ge_finite_inf.
Qed.

(** Under maximization only a candidate of performance [+infinity] enters
    an empty cell. *)
Lemma maximization_fills_only_with_inf `{P : Problem} (self self' : MapElites.t)
    (x : genotype) (b : list Z) :
  well_formed self -> minimization self = false ->
  map_x_to_b x = Ok b ->
  getitem (performances self) b = Ok inf ->
  place_in_mapelites self x = Ok self' ->
  self' <> self -> performance_measure x = inf.
Proof.
  intros Hwf Hmax Hb Hget Hpl Hne. pose proof Hwf as (_ & _ & [Hp _]).
  apply getitem_Ok in Hget as (c & Hc & Hinc). rewrite Hp in Hc.
  destruct (place_in_mapelites_spec _ _ _ _ Hwf Hb Hc) as (inc & Hinc' & _ & Hpl').
  rewrite Hinc in Hinc'. injection Hinc' as <-.
  rewrite Hpl', Hmax in Hpl. injection Hpl as <-.
  destruct (float_ge (performance_measure x) inf) eqn:E; [|done].
  by apply float_ge_inf.
Qed.

(** C1: on the freshly constructed maximizing archive, the candidate with
    feature 0.5 and the finite performance 10 maps to the empty cell 0,
    whose performance is the sentinel [+infinity]; the comparison
    [operator.ge(10, inf)] is false, the call rejects the candidate and the
    archive is unchanged. The same candidate enters the empty cell of the
    minimizing archive. *)
Theorem maximization_rejects_finite_candidate :
  let x : genotype := (half 1, f 10) in
  fresh false = Ok (archive false) /\
  is_finite (performance_measure x) = true /\
  map_x_to_b x = Ok [0] /\
  getitem (performances (archive false)) [0] = Ok inf /\
  call_operator (place_operator (archive false)) (performance_measure x) inf
    = Ok false /\
  place_in_mapelites (archive false) x = Ok (archive false) /\
  (exists self', place_in_mapelites (archive true) x = Ok self' /\
     getitem (performances self') [0] = Ok (f 10) /\
     getitem (solutions self') [0] = Ok x).
Proof.
  cbv zeta. repeat split; try (vm_compute; reflexivity).
  eexists. repeat split; vm_compute; reflexivity.
Qed.

Lemma placement_is_monotonic_witness :
  exists p, data (performances (seeded true)) !! [1] = Some p /\
    at_least_as_good true p (performance_measure (half 3, f 5)) = true.
Proof.
  apply (placement_is_monotonic 10 3 true (archive true) (seeded true) seeds
           (half 3, f 5) [1] [1]).
  - vm_compute; reflexivity.
  - vm_compute; reflexivity.
  - right; left.
  - vm_compute; reflexivity.
  - vm_compute; reflexivity.
  - vm_compute; reflexivity.
Defined.

Lemma placement_tie_break_witness :
  place_in_mapelites (seeded true) (half 3, f 5) = Ok (seeded true) /\
  exists self',
    place_in_mapelites seeded_max (half 3, f 5) = Ok self' /\
    getitem (solutions self') [1] = Ok (half 3, f 5) /\
    getitem (performances self') [1] = Ok (performance_measure (half 3, f 5)).
Proof.
  split.
  - apply (placement_tie_break (seeded true) (half 3, f 5) [1] (f 5)).
    + apply (bool_decide_unpack _); vm_compute; exact I.
    + vm_compute; reflexivity.
    + vm_compute; reflexivity.
    + vm_compute; reflexivity.
  - apply (placement_tie_break seeded_max (half 3, f 5) [1] (f 5)).
    + apply (bool_decide_unpack _); vm_compute; exact I.
    + vm_compute; reflexivity.
    + vm_compute; reflexivity.
    + vm_compute; reflexivity.
Defined.

Lemma placement_frame_witness :
  exists c better,
    normalize_index (shape (performances (seeded true))) [1] = Some c /\
    call_operator (place_operator (seeded true))
      (performance_measure (half 3, f 3)) (f 5) = Ok better /\
    if (better : bool)
    then exists self',
      place_in_mapelites (seeded true) (half 3, f 3) = Ok self' /\
      data (performances self') !! c = Some (performance_measure (half 3, f 3)) /\
      data (solutions self') !! c = Some (half 3, f 3) /\
      shape (performances self') = shape (performances (seeded true)) /\
      shape (solutions self') = shape (solutions (seeded true)) /\
      forall c', c' <> c ->
        data (performances self') !! c' = data (performances (seeded true)) !! c' /\
        data (solutions self') !! c' = data (solutions (seeded true)) !! c'
    else place_in_mapelites (seeded true) (half 3, f 3) = Ok (seeded true).
Proof.
  apply (placement_frame (seeded true) (half 3, f 3) [1] (f 5)).
  - apply (bool_decide_unpack _); vm_compute; exact I.
  - vm_compute; reflexivity.
  - vm_compute; reflexivity.
Defined.

(** The seeds land in bins 0, 1, 2 with performances 10, 5, 8; a candidate
    with feature 1.75 and performance 3 then replaces the occupant of bin 1,
    and a candidate with performance 6 is rejected there. *)
Lemma end_to_end_scenario :
  (fun c => data (performances (seeded true)) !! c) <$> [[0]; [1]; [2]]
    = [Some (f 10); Some (f 5); Some (f 8)] /\
  exists self1,
    place_in_mapelites (seeded true) (of_Z2 7 (-2), f 3) = Ok self1 /\
    getitem (performances self1) [1] = Ok (f 3) /\
    getitem (solutions self1) [1] = Ok (of_Z2 7 (-2), f 3) /\
    place_in_mapelites self1 (half 3, f 6) = Ok self1.
Proof.
  split; [vm_compute; reflexivity|].
  eexists. split; [vm_compute; reflexivity|].
  repeat split; vm_compute; reflexivity.
Qed.

(** A performance that is not a number loses every comparison: the
    candidate is rejected in both directions, also at an empty cell. *)
Lemma nan_performance_is_rejected :
  place_in_mapelites (archive true) (half 3, nan) = Ok (archive true) /\
  place_in_mapelites (archive false) (half 3, nan) = Ok (archive false) /\
  place_in_mapelites (seeded true) (half 3, nan) = Ok (seeded true).
Proof. repeat split; vm_compute; reflexivity. Qed.

End PlacementExamples.

(** ** FeatureDimension: construction and descriptor *)

Section FeatureDimensionProperties.
Import FeatureDimension.

Lemma call_supported_operator (op : py_operator) (a b : float) :
  op ∈ supported_operators -> exists holds, call_operator op a b = Ok holds.
Proof.
  unfold supported_operators. rewrite !elem_of_cons, elem_of_nil.
  intros [->|[->|[->|[->|[->|[]]]]]]; cbn; eauto.
Qed.

(** C5: [feature_descriptor] returns the absolute gap
    [|measure(x) - target(x)|] when the relation is "equals"; for an
    inequality relation it returns 0 when the relation holds between
    measure and target and the absolute gap otherwise. The result is a
    number that compares [>= 0] whenever measure and target are real
    numbers; in general it compares [>= 0] unless it is NaN. *)
Theorem feature_descriptor_spec (self : FeatureDimension.t) (x : genotype) :
  feature_function_operator self ∈ supported_operators ->
  (feature_function_operator self = operator_eq ->
     feature_descriptor self x =
       Ok (fabs (sub (feature_function_call self x) (feature_function_target self x)))) /\
  (feature_function_operator self <> operator_eq ->
     exists holds : bool,
       call_operator (feature_function_operator self)
         (feature_function_call self x) (feature_function_target self x) = Ok holds /\
       feature_descriptor self x =
         Ok (if holds then zero
             else fabs (sub (feature_function_call self x)
                            (feature_function_target self x)))) /\
  (exists r,
     feature_descriptor self x = Ok r /\
     (is_nan r = false -> float_ge r zero = true) /\
     (is_finite (feature_function_call self x) = true ->
      is_finite (feature_function_target self x) = true ->
      is_nan r = false /\ float_ge r zero = true)).
Proof.
  intros Hop. unfold feature_descriptor.
  destruct (call_supported_operator _ (feature_function_call self x)
              (feature_function_target self x) Hop) as [holds Hcall].
  set (gap := fabs (sub (feature_function_call self x) (feature_function_target self x))).
  assert (Hgap : is_nan gap = false -> float_ge gap zero = true).
  { unfold gap. destruct (sub _ _); cbn; intros; (done || discriminate). }
  assert (Hreal : is_finite (feature_function_call self x) = true ->
                  is_finite (feature_function_target self x) = true ->
                  is_nan gap = false).
  { intros Hm Ht. pose proof (sub_finite_not_nan _ _ Hm Ht) as H.
    unfold gap. by destruct (sub _ _). }
  case_decide as Heq; (split; [|split]); try done.
  - exists gap. split; [done|]. split; [done|]. auto.
  - intros _. exists holds. split; [done|]. rewrite Hcall. cbn. by destruct holds.
  - rewrite Hcall. cbn. destruct holds; [exists zero|exists gap].
    + repeat split; done.
    + split; [done|]. split; [done|]. auto.
Qed.

(** The one test the constructor makes. *)
Lemma init_unsupported_operator name target call op (bins : list float) :
  op ∉ supported_operators ->
  __init__ name target call op bins =
    Raise (ValueError "Feature function operator not recognized").
Proof. intros H. unfold __init__. by rewrite decide_True. Qed.


End FeatureDimensionProperties.

Section Configuration.

(** C8: a [FeatureDimension] constructed with an object that is not one of
    the five supported comparison functions raises; a [MapElites]
    constructed over a [generate_feature_dimensions] result that is not a
    list or tuple, or that holds an item that is not a [FeatureDimension],
    raises. In both cases no object exists on which an iteration could
    run. *)
Theorem configuration_errors_raise :
  (forall name target call op (bins : list float),
     op ∉ FeatureDimension.supported_operators ->
     FeatureDimension.__init__ name target call op bins =
       Raise (ValueError "Feature function operator not recognized")) /\
  (forall (P : Problem) (iterations random_solutions : nat) (minimization : bool),
     isinstance_list_or_tuple generate_feature_dimensions = false \/
     (exists o, o ∈ items_of generate_feature_dimensions /\
                isinstance_FeatureDimension o = false) ->
     exists msg,
       __init__ iterations random_solutions minimization = Raise (Exception msg)).
Proof.
  split; [apply init_unsupported_operator|].
  intros P iterations random_solutions minimization H. unfold __init__.
  assert (negb (isinstance_list_or_tuple generate_feature_dimensions)
          || negb (forallb isinstance_FeatureDimension
                     (items_of generate_feature_dimensions)) = true) as ->;
    [|eauto].
  apply orb_true_iff. destruct H as [->|(o & Ho & Hfalse)]; [by left|right].
  apply negb_true_iff, not_true_iff_false. intros Hall.
  rewrite forallb_forall in Hall. apply list_elem_of_In in Ho.
  specialize (Hall o Ho). congruence.
Qed.

(** C9: the comparison [x == np.nan] is false for every float, and the
    emptiness test of the selector is the same function as the test for
    an infinite component alone. *)
Theorem is_not_initialized_is_infinity_test :
  (forall x : float, float_eq x nan = false) /\
  (forall (self : MapElites.t) (index : list Z),
     _is_not_initialized self index = is_not_initialized_by_infinity self index) /\
  (forall x : float, nan_or_inf x = is_inf x).
Proof.
  assert (H : forall x, nan_or_inf x = float_eq (fabs x) inf).
  { intros x. unfold nan_or_inf. by rewrite float_eq_nan_r. }
  split; [apply float_eq_nan_r|]. split.
  - intros self index. unfold _is_not_initialized, is_not_initialized_by_infinity.
    destruct (getitem (solutions self) index) as [g|]; [|done]. cbn.
    by rewrite !H.
  - intros x. by rewrite H, float_eq_fabs_inf.
Qed.

End Configuration.

(** ** The properties on the concrete edges 0, 1, 2, 3 *)

Section FeatureDimensionExamples.
Import Example.

Lemma discretize_spec_witness :
  (raises (FeatureDimension.discretize ft (half 3)) = false <->
     float_le (f 0) (half 3) = true /\ float_lt (half 3) (f 3) = true) /\
  exists i : nat,
    FeatureDimension.discretize ft (half 3) = Ok (Z.of_nat i) /\ (i < 3)%nat.
Proof.
  destruct (discretize_spec ft (half 3) 3) as (H1 & _ & H3 & _).
  - vm_compute; reflexivity.
  - vm_compute; reflexivity.
  - vm_compute; reflexivity.
  - split; [exact H1|].
    destruct H3 as (i & Hi & Hlt & _); [vm_compute; reflexivity|].
    exists i. split; [exact Hi|exact Hlt].
Defined.

(** The two edge cases of the end-to-end scenario. *)
Lemma discretize_edges :
  FeatureDimension.discretize ft (f 0) = Ok 0 /\
  FeatureDimension.discretize ft (f 3) = Raise (Exception "value outside of bins").
Proof. split; vm_compute; reflexivity. Qed.

Lemma feature_descriptor_spec_witness :
  FeatureDimension.feature_descriptor ft (half 3, f 5) = Ok (half 3) /\
  FeatureDimension.feature_descriptor ft_le (f 1, f 2) = Ok zero /\
  FeatureDimension.feature_descriptor ft_le (f 2, half 1) = Ok (half 3).
Proof.
  split; [|split].
  - destruct (feature_descriptor_spec ft (half 3, f 5)) as (H & _).
    + vm_compute. left.
    + rewrite H by reflexivity. vm_compute; reflexivity.
  - destruct (feature_descriptor_spec ft_le (f 1, f 2)) as (_ & H & _).
    + vm_compute. right; left.
    + destruct H as (holds & Hholds & ->); [discriminate|].
      vm_compute in Hholds. injection Hholds as <-. reflexivity.
  - destruct (feature_descriptor_spec ft_le (f 2, half 1)) as (_ & H & _).
    + vm_compute. right; left.
    + destruct H as (holds & Hholds & ->); [discriminate|].
      vm_compute in Hholds. injection Hholds as <-. vm_compute; reflexivity.
Defined.


(** Repeated edges are accepted by [np.digitize]: such bins never show. *)
Lemma repeated_edges_are_silent :
  FeatureDimension.discretize
    (FeatureDimension.mk "f" (fun x => x.1) (fun _ => zero) operator_eq
       [f 0; f 1; f 1; f 2]) (half 3) = Ok 2.
Proof. vm_compute; reflexivity. Qed.

Lemma configuration_errors_raise_witness :
  FeatureDimension.__init__ "f" (fun _ => zero) (fun x => x.1) operator_ne [f 0; f 1]
    = Raise (ValueError "Feature function operator not recognized") /\
  exists msg, @__init__ misconfigured 10 3 true = Raise (Exception msg).
Proof.
  destruct configuration_errors_raise as [H1 H2]. split.
  - apply H1. apply (bool_decide_unpack _). vm_compute. exact I.
  - apply H2. left. reflexivity.
Defined.

(** Outside the real numbers: a measure that is NaN gives a NaN
    descriptor, and [np.digitize] sorts NaN past the last edge, so that
    [discretize] raises on it. *)
Lemma nan_descriptor :
  FeatureDimension.feature_descriptor ft (nan, f 1) = Ok nan /\
  FeatureDimension.feature_descriptor ft_le (nan, f 1) = Ok nan /\
  FeatureDimension.discretize ft nan = Raise (Exception "value outside of bins").
Proof. repeat split; vm_compute; reflexivity. Qed.

End FeatureDimensionExamples.

(** ** random_selection *)

Section Selection.
Implicit Types (self : MapElites.t) (rnd : tape) (idx c : list Z)
  (idxs : list (list Z)) (inds : list genotype).

Lemma randint_Ok rnd (high : Z) (pos : nat) (v : Z) (pos' : nat) :
  randint rnd 0 high pos = Ok (v, pos') -> 0 <= v < high /\ pos' = S pos.
Proof.
  unfold randint. case_decide; [|discriminate]. intros [= <- <-].
  split; [|done]. pose proof (Z.mod_pos_bound (rnd pos) (high - 0)). lia.
Qed.

Lemma ndindex_snoc (shp : list Z) (n : Z) c (v : Z) :
  c ∈ ndindex shp -> 0 <= v < n -> c ++ [v] ∈ ndindex (shp ++ [n]).
Proof.
  rewrite !elem_of_ndindex. intros Hc Hv.
  apply Forall2_app; [done|]. constructor; [done|constructor].
Qed.

Lemma random_index_loop_Ok rnd (fts done : list FeatureDimension.t)
    (indexes : list Z) (pos : nat) idx (pos' : nat) :
  indexes ∈ ndindex (ft_bins done) ->
  random_index_loop rnd fts indexes pos = Ok (idx, pos') ->
  idx ∈ ndindex (ft_bins (done ++ fts)) /\ pos' = (pos + length fts)%nat.
Proof.
  revert done indexes pos. induction fts as [|ft fts IH]; intros done indexes pos Hin.
  - cbn. intros [= <- <-]. rewrite app_nil_r. split; [done|lia].
  - cbn [random_index_loop].
    destruct (randint rnd 0 _ pos) as [[v pos1]|] eqn:E; [|discriminate].
    cbn [mbind result_bind]. apply randint_Ok in E as [Hv ->]. intros H.
    destruct (IH (done ++ [ft]) (indexes ++ [v]) (S pos)) as [Hidx ->]; [|done|].
    + unfold ft_bins. rewrite fmap_app. by apply ndindex_snoc.
    + rewrite <- app_assoc in Hidx. split; [done|]. cbn. lia.
Qed.

Lemma random_index_loop_drawable rnd (fts : list FeatureDimension.t)
    (indexes : list Z) (pos : nat) :
  Forall (fun n => 0 < n) (ft_bins fts) ->
  exists idx pos', random_index_loop rnd fts indexes pos = Ok (idx, pos').
Proof.
  revert indexes pos. induction fts as [|ft fts IH]; intros indexes pos H; cbn.
  - eauto.
  - inversion H as [|n shp Hn Hshp]; subst.
    unfold randint. rewrite decide_True by done. cbn. by apply IH.
Qed.

Lemma get_random_index_Ok self rnd (pos : nat) idx (pos' : nat) :
  _get_random_index self rnd pos = Ok (idx, pos') ->
  idx ∈ ndindex (ft_bins (feature_dimensions self)) /\
  pos' = (pos + length (feature_dimensions self))%nat.
Proof.
  intros H. apply (random_index_loop_Ok rnd _ [] [] pos); [|done].
  cbn. by apply list_elem_of_singleton.
Qed.

Lemma get_random_index_drawable self rnd (pos : nat) :
  drawable self ->
  exists idx, _get_random_index self rnd pos =
    Ok (idx, (pos + length (feature_dimensions self))%nat).
Proof.
  intros H.
  destruct (random_index_loop_drawable rnd _ [] pos H) as (idx & pos' & E).
  exists idx. unfold _get_random_index. rewrite E.
  by destruct (get_random_index_Ok self rnd pos idx pos' E) as [_ ->].
Qed.

(** Reading a cell of a well-formed archive at a coordinate of the grid. *)
Lemma getitem_solutions self c :
  well_formed self -> c ∈ ndindex (ft_bins (feature_dimensions self)) ->
  exists g, data (solutions self) !! c = Some g /\
            getitem (solutions self) c = Ok g.
Proof.
  intros (_ & Hs & _) Hc. by apply (dense_getitem _ _ _ _ Hs), normalize_index_id.
Qed.

Lemma occupied_cells_lookup self c (g : genotype) :
  occupied_cells self !! c = Some g <->
  data (solutions self) !! c = Some g /\ initialized g = true.
Proof. unfold occupied_cells. by rewrite map_lookup_filter_Some. Qed.

(** The cell is acceptable to the loop: not chosen yet, and occupied. *)
Lemma is_not_initialized_false self c :
  well_formed self -> c ∈ ndindex (ft_bins (feature_dimensions self)) ->
  (_is_not_initialized self c = Ok false <-> is_Some (occupied_cells self !! c)) /\
  (exists r, _is_not_initialized self c = Ok r).
Proof.
  intros Hwf Hc. destruct (getitem_solutions self c Hwf Hc) as (g & Hg & Hget).
  unfold _is_not_initialized. rewrite Hget. cbn [mbind result_bind].
  split; [|eauto]. set (e := existsb nan_or_inf (components g)). split.
  - intros H. assert (He : e = false) by congruence.
    exists g. apply occupied_cells_lookup. split; [done|].
    unfold initialized. fold e. by rewrite He.
  - intros [g' [Hg' Hinit]%occupied_cells_lookup].
    rewrite Hg in Hg'. injection Hg' as <-. unfold initialized in Hinit.
    fold e in Hinit. apply negb_true_iff in Hinit. by rewrite Hinit.
Qed.

(** *** What a returning call returns *)

Lemma redraw_loop_Ok (fuel : nat) self rnd idxs idx (pos : nat) idx' (pos' : nat) :
  well_formed self ->
  idx ∈ ndindex (ft_bins (feature_dimensions self)) ->
  redraw_loop fuel self rnd idxs idx pos = Some (Ok (idx', pos')) ->
  idx' ∈ ndindex (ft_bins (feature_dimensions self)) /\
  (idx' ∉ idxs) /\ is_Some (occupied_cells self !! idx').
Proof.
  intros Hwf. revert idx pos. induction fuel as [|fuel IH]; intros idx pos Hidx;
    cbn [redraw_loop]; case_decide as Hin.
  - discriminate.
  - destruct (_is_not_initialized self idx) as [[]|] eqn:E; try discriminate.
    intros [= <- <-]. repeat split; [done..|].
    by apply (is_not_initialized_false self idx Hwf Hidx).
  - destruct (_get_random_index self rnd pos) as [[idx1 pos1]|] eqn:E;
      [|discriminate].
    apply IH. by apply get_random_index_Ok in E as [? _].
  - destruct (_is_not_initialized self idx) as [[]|] eqn:E; try discriminate.
    + destruct (_get_random_index self rnd pos) as [[idx1 pos1]|] eqn:E1;
        [|discriminate].
      apply IH. by apply get_random_index_Ok in E1 as [? _].
    + intros [= <- <-]. repeat split; [done..|].
      by apply (is_not_initialized_false self idx Hwf Hidx).
Qed.

Lemma select_loop_Ok (fuel : nat) self rnd (n : nat) idxs inds (pos : nat)
    idxs' inds' (pos' : nat) :
  well_formed self -> chosen self idxs inds ->
  select_loop fuel self rnd n idxs inds pos = Some (Ok (idxs', inds', pos')) ->
  chosen self idxs' inds' /\ length inds' = (length inds + n)%nat.
Proof.
  intros Hwf. revert idxs inds pos. induction n as [|n IH]; intros idxs inds pos Hch;
    cbn [select_loop].
  - intros [= <- <- <-]. split; [done|lia].
  - destruct (_get_random_index self rnd pos) as [[idx pos1]|] eqn:E; [|discriminate].
    apply get_random_index_Ok in E as [Hidx _].
    destruct (redraw_loop fuel self rnd idxs idx pos1) as [[[idx' pos2]|]|] eqn:E1;
      try discriminate.
    destruct (redraw_loop_Ok _ _ _ _ _ _ _ _ Hwf Hidx E1) as (Hidx' & Hnew & [g Hocc]).
    destruct (getitem_solutions self idx' Hwf Hidx') as (g' & Hg' & ->).
    apply occupied_cells_lookup in Hocc as Hg. destruct Hg as [Hg _].
    rewrite Hg' in Hg. injection Hg as ->.
    intros H. apply IH in H as [Hch' Hlen].
    + split; [done|]. rewrite length_app in Hlen. cbn in Hlen. lia.
    + destruct Hch as [Hnd Hall]. split.
      * apply NoDup_app. repeat split; [done| |apply NoDup_singleton].
        intros c Hc ->%list_elem_of_singleton. done.
      * apply Forall2_app; [done|]. constructor; [done|constructor].
Qed.

Lemma chosen_bound self idxs inds :
  chosen self idxs inds -> (length idxs <= size (occupied_cells self))%nat.
Proof.
  intros [Hnd Hall].
  rewrite <- (size_list_to_set (C := gset (list Z)) idxs Hnd), <- size_dom.
  apply subseteq_size. intros c Hc%elem_of_list_to_set.
  apply elem_of_dom. apply list_elem_of_lookup in Hc as [i Hi].
  destruct (Forall2_lookup_l _ _ _ _ _ Hall Hi) as (g & _ & Hg). eauto.
Qed.

(** *** Termination *)



(** On a well-formed archive whose axes all have a bin, nothing in the
    loop raises. *)
Lemma redraw_loop_no_raise (fuel : nat) self rnd idxs idx (pos : nat) :
  well_formed self -> drawable self ->
  idx ∈ ndindex (ft_bins (feature_dimensions self)) ->
  redraw_loop fuel self rnd idxs idx pos = None \/
  exists idx' pos', redraw_loop fuel self rnd idxs idx pos = Some (Ok (idx', pos')).
Proof.
  intros Hwf Hdraw. revert idx pos. induction fuel as [|fuel IH]; intros idx pos Hidx;
    cbn [redraw_loop];
    destruct (is_not_initialized_false self idx Hwf Hidx) as [_ [r Hr]];
    (assert (exists t, (if decide (idx ∈ idxs) then Ok true
                        else _is_not_initialized self idx) = Ok t) as [[] ->]
       by (case_decide; eauto)); eauto.
  destruct (get_random_index_drawable self rnd pos Hdraw) as [idx1 E].
  rewrite E. apply IH. by apply get_random_index_Ok in E as [? _].
Qed.

Lemma select_loop_no_raise (fuel : nat) self rnd (n : nat) idxs inds (pos : nat) :
  well_formed self -> drawable self ->
  select_loop fuel self rnd n idxs inds pos = None \/
  exists res, select_loop fuel self rnd n idxs inds pos = Some (Ok res).
Proof.
  intros Hwf Hdraw. revert idxs inds pos. induction n as [|n IH]; intros idxs inds pos;
    cbn [select_loop]; [eauto|].
  destruct (get_random_index_drawable self rnd pos Hdraw) as [idx E].
  rewrite E. apply get_random_index_Ok in E as [Hidx _].
  destruct (redraw_loop_no_raise fuel self rnd idxs idx
              (pos + length (feature_dimensions self)) Hwf Hdraw Hidx)
    as [->|(idx' & pos' & E1)]; [by left|].
  rewrite E1. destruct (redraw_loop_Ok _ _ _ _ _ _ _ _ Hwf Hidx E1) as (Hidx' & _).
  destruct (getitem_solutions self idx' Hwf Hidx') as (g & _ & ->). apply IH.
Qed.






(** *** The test of the selector, on the stored genotype *)






End Selection.

Section SelectionExamples.
Import Example.




(** The selection on the seeded archive, run: two draws, two elites. *)
Lemma random_selection_seeded :
  random_selection 0 (seeded true) counting 2 0
    = Some (Ok ([(half 1, f 10); (half 3, f 5)], 2%nat)) /\
  random_selection 100 (seeded true) counting 4 0 = None.
Proof. split; vm_compute; reflexivity. Qed.

End SelectionExamples.

(** ** Further properties of placement *)

Section PlacementExtras.
Import Archive.
Context `{P : Problem}.
Implicit Types (self : MapElites.t) (x : genotype) (b c : list Z).

Lemma beats_spec self (p q : float) :
  (if minimization self then float_lt p q else float_ge p q)
  = beats (minimization self) p q.
Proof. done. Qed.

(** One call, read on the two grids of a well-formed archive. *)
Lemma place_in_mapelites_data self x self' :
  well_formed self ->
  place_in_mapelites self x = Ok self' ->
  exists b c incumbent,
    map_x_to_b x = Ok b /\
    normalize_index (ft_bins (feature_dimensions self)) b = Some c /\
    data (performances self) !! c = Some incumbent /\
    is_Some (data (solutions self) !! c) /\
    feature_dimensions self' = feature_dimensions self /\
    minimization self' = minimization self /\
    if beats (minimization self) (performance_measure x) incumbent
    then data (performances self') = <[c := performance_measure x]> (data (performances self)) /\
         data (solutions self') = <[c := x]> (data (solutions self))
    else self' = self.
Proof.
  intros Hwf Hpl.
  destruct (place_in_mapelites_Ok_inv _ _ _ Hwf Hpl) as (b & c & Hb & Hc).
  destruct (place_in_mapelites_spec _ _ _ _ Hwf Hb Hc) as (inc & Hinc & _ & Hpl').
  rewrite Hpl' in Hpl. injection Hpl as <-.
  exists b, c, inc. repeat split; try done.
  - destruct Hwf as (_ & Hs & _). apply (dense_lookup _ _ _ Hs).
    by eapply normalize_index_ndindex.
  - by destruct (if minimization self then _ else _).
  - by destruct (if minimization self then _ else _).
  - rewrite <- beats_spec. by destruct (if minimization self then _ else _).
Qed.

Lemma in_sync_weaken self (seen seen' : list genotype) :
  (forall g, g ∈ seen -> g ∈ seen') -> in_sync self seen -> in_sync self seen'.
Proof.
  intros Hsub H c g p Hg Hp.
  destruct (H c g p Hg Hp) as [?|(Hin & ? & ?)]; [by left|right]. auto.
Qed.

Lemma place_in_mapelites_in_sync self x self' (seen : list genotype) :
  well_formed self -> in_sync self seen ->
  place_in_mapelites self x = Ok self' ->
  in_sync self' (x :: seen).
Proof.
  intros Hwf Hsync Hpl.
  destruct (place_in_mapelites_data _ _ _ Hwf Hpl)
    as (b & c & inc & Hb & Hc & Hinc & _ & Hfts & _ & Hcase).
  destruct (beats _ _ _).
  - destruct Hcase as [Hperf Hsol]. intros c' g p.
    rewrite Hperf, Hsol, Hfts, !lookup_insert. case_decide as Hcc.
    + subst c'. intros [= <-] [= <-]. right. split; [by left|]. eauto.
    + intros Hg Hp. destruct (Hsync c' g p Hg Hp) as [?|(Hin & ? & ?)];
        [by left|right]. split; [by right|done].
  - subst self'. eapply in_sync_weaken; [|done]. intros g Hg. by right.
Qed.

Lemma place_all_in_sync self xs self' (seen : list genotype) :
  well_formed self -> in_sync self seen ->
  place_all self xs = Ok self' ->
  in_sync self' (rev xs ++ seen).
Proof.
  revert self seen. induction xs as [|x xs IH]; intros self seen Hwf Hsync; cbn.
  - by intros [= <-].
  - destruct (place_in_mapelites self x) as [self1|] eqn:E; [|discriminate].
    cbn [mbind result_bind]. intros Hall.
    destruct (place_in_mapelites_well_formed _ _ _ Hwf E) as (Hwf1 & _ & _).
    rewrite <- app_assoc. cbn. apply (IH self1 (x :: seen)); [done| |done].
    exact (place_in_mapelites_in_sync self x self1 seen Hwf Hsync E).
Qed.

(** X1: in every archive reached from the constructed one by placements,
    the two grids agree cell by cell: a cell holds either the two
    sentinels, or one of the candidates that were placed together with the
    performance computed for that very candidate, at the coordinates the
    candidate maps to. *)
Theorem grids_stay_in_sync
    (iterations random_solutions : nat) (minimization : bool)
    (self0 self : MapElites.t) (xs : list genotype) :
  __init__ iterations random_solutions minimization = Ok self0 ->
  place_all self0 xs = Ok self ->
  in_sync self xs.
Proof.
  intros (Hwf0 & _ & Hinf & Hsent)%init_Ok Hall.
  eapply in_sync_weaken; [|eapply (place_all_in_sync self0 xs self []); eauto].
  - intros g. rewrite app_nil_r. intros Hg%list_elem_of_In.
    apply list_elem_of_In. by apply in_rev.
  - intros c g p Hg Hp. left. split; [by eapply Hsent|by eapply Hinf].
Qed.

(** X2: a maximizing archive never records a performance: whatever is
    placed, every cell of the performance grid stays at [+infinity],
    because only a performance that compares [>= +infinity] replaces the
    sentinel. *)
Theorem maximization_performances_stay_inf
    (iterations random_solutions : nat) (self0 self : MapElites.t)
    (xs : list genotype) (c : list Z) (p : float) :
  __init__ iterations random_solutions false = Ok self0 ->
  place_all self0 xs = Ok self ->
  data (performances self) !! c = Some p ->
  p = inf.
Proof.
  intros (Hwf0 & Hmin0 & Hinf0 & _)%init_Ok. revert c p.
  assert (Hgen : forall xs self1 self2,
    well_formed self1 -> minimization self1 = false ->
    (forall c p, data (performances self1) !! c = Some p -> p = inf) ->
    place_all self1 xs = Ok self2 ->
    forall c p, data (performances self2) !! c = Some p -> p = inf).
  { clear. induction xs as [|x xs IH]; intros self1 self2 Hwf Hmin Hinf; cbn.
    - by intros [= <-].
    - destruct (place_in_mapelites self1 x) as [self'|] eqn:E; [|discriminate].
      cbn [mbind result_bind].
      destruct (place_in_mapelites_well_formed _ _ _ Hwf E) as (Hwf' & Hmin' & _).
      apply IH; [done|congruence|].
      destruct (place_in_mapelites_data _ _ _ Hwf E)
        as (b & c & inc & _ & _ & Hinc & _ & _ & _ & Hcase).
      rewrite Hmin in Hcase. cbn [beats] in Hcase.
      destruct (float_ge _ inc) eqn:Hge; [|by subst].
      destruct Hcase as [Hperf _]. intros c' p. rewrite Hperf, lookup_insert.
      case_decide; [|apply Hinf]. intros [= <-].
      rewrite (Hinf _ _ Hinc) in Hge. by apply float_ge_inf. }
  intros c p Hall. by eapply Hgen.
Qed.

Lemma beats_trans (m : bool) (p q r : float) :
  beats m p q = true -> beats m q r = true -> beats m p r = true.
Proof.
  destruct m; cbn.
  - apply float_lt_trans.
  - unfold float_ge. change (SFleb ?a ?b) with (float_le a b).
    intros H1 H2. by eapply float_le_trans.
Qed.

(** X3: over any sequence of placements the performance stored in a cell
    is either the one it was, or one that won the comparison of the
    objective against it: strictly lower under minimization, greater or
    equal under maximization. No cell ever goes back. *)
Theorem stored_performance_only_improves self xs self' c (p p' : float) :
  well_formed self ->
  place_all self xs = Ok self' ->
  data (performances self) !! c = Some p ->
  data (performances self') !! c = Some p' ->
  p' = p \/ beats (minimization self) p' p = true.
Proof.
  revert self p. induction xs as [|x xs IH]; intros self p Hwf; cbn.
  - intros [= <-] Hp Hp'. left. congruence.
  - destruct (place_in_mapelites self x) as [self1|] eqn:E; [|discriminate].
    cbn [mbind result_bind]. intros Hall Hp Hp'.
    destruct (place_in_mapelites_well_formed _ _ _ Hwf E) as (Hwf1 & Hmin & _).
    destruct (place_in_mapelites_data _ _ _ Hwf E)
      as (b & c1 & inc & _ & _ & Hinc & _ & _ & _ & Hcase).
    destruct (beats _ _ inc) eqn:Hb.
    + destruct Hcase as [Hperf _].
      destruct (decide (c1 = c)) as [->|Hne].
      * assert (Hp1 : data (performances self1) !! c = Some (performance_measure x))
          by (by rewrite Hperf, lookup_insert_eq).
        rewrite Hinc in Hp. injection Hp as <-.
        destruct (IH self1 _ Hwf1 Hall Hp1 Hp') as [->|H]; [by right|].
        right. rewrite Hmin in H. by eapply beats_trans.
      * assert (Hp1 : data (performances self1) !! c = Some p)
          by (by rewrite Hperf, lookup_insert_ne).
        rewrite <- Hmin. by eapply IH.
    + subst self1. by eapply IH.
Qed.

(** X4: placing the same candidate a second time changes nothing: the call
    returns the archive the first call returned, in both directions of the
    objective. *)
Theorem placing_twice_is_placing_once self x self' :
  well_formed self ->
  place_in_mapelites self x = Ok self' ->
  place_in_mapelites self' x = Ok self'.
Proof.
  intros Hwf Hpl.
  destruct (place_in_mapelites_well_formed _ _ _ Hwf Hpl) as (Hwf' & Hmin & Hfts).
  destruct (place_in_mapelites_Ok_inv _ _ _ Hwf Hpl) as (b & c & Hb & Hc).
  destruct (place_in_mapelites_spec _ _ _ _ Hwf Hb Hc) as (inc & Hinc & _ & Hpl1).
  rewrite <- Hfts in Hc.
  destruct (place_in_mapelites_spec _ _ _ _ Hwf' Hb Hc) as (inc' & Hinc' & _ & Hpl2).
  rewrite Hpl2. f_equal. rewrite Hpl1 in Hpl. injection Hpl as Hself'.
  rewrite !beats_spec in *.
  destruct (beats (minimization self) _ inc) eqn:Hb1.
  - (* the first call stored the candidate *)
    assert (inc' = performance_measure x) as ->.
    { rewrite <- Hself' in Hinc'. cbn in Hinc'.
      rewrite lookup_insert_eq in Hinc'. congruence. }
    destruct (beats (minimization self') _ _) eqn:Hb2; [|done].
    rewrite <- Hself'. cbn. by rewrite !insert_insert_eq.
  - (* the first call rejected it, and so does the second *)
    subst self'. rewrite Hinc in Hinc'. injection Hinc' as <-. by rewrite Hb1.
Qed.

(** X5: on a well-formed archive, when [map_x_to_b] returns at least one
    coordinate per feature dimension, the call returns exactly when these
    are coordinates of a cell of the grid; otherwise the coordinates are
    out of bounds (or too many) and the call raises [IndexError]. An
    exception of [map_x_to_b] is the exception of the call. *)
Theorem placement_errors self x :
  well_formed self ->
  (forall b, map_x_to_b x = Ok b ->
     (length (feature_dimensions self) <= length b)%nat) ->
  match map_x_to_b x with
  | Raise e => place_in_mapelites self x = Raise e
  | Ok b =>
      match normalize_index (ft_bins (feature_dimensions self)) b with
      | Some _ => exists self', place_in_mapelites self x = Ok self'
      | None => place_in_mapelites self x = Raise (IndexError "index out of bounds")
      end
  end.
Proof.
  intros Hwf _. destruct (map_x_to_b x) as [b|e] eqn:Hb.
  - destruct (normalize_index _ b) as [c|] eqn:Hc.
    + destruct (place_in_mapelites_spec _ _ _ _ Hwf Hb Hc) as (inc & _ & _ & ->).
      eauto.
    + unfold place_in_mapelites, getitem. rewrite Hb. cbn [mbind result_bind].
      destruct Hwf as (_ & _ & [-> _]). by rewrite Hc.
  - unfold place_in_mapelites. by rewrite Hb.
Qed.

End PlacementExtras.

(** ** The grid a constructed archive has *)

Section Grid.
Import Archive.

Lemma ndindex_cons (n : Z) (shp : list Z) :
  ndindex (n :: shp) = seqZ 0 n ≫= fun i => cons i <$> ndindex shp.
Proof.
  cbn [ndindex]. f_equal.
Qed.

Lemma NoDup_ndindex (shp : list Z) : NoDup (ndindex shp).
Proof.
  induction shp as [|n shp IH]; [apply NoDup_singleton|].
  rewrite ndindex_cons. apply NoDup_bind; [| |apply NoDup_seqZ].
  - intros i1 i2 c _ _ (c1 & -> & _)%list_elem_of_fmap (c2 & [= -> _] & _)%list_elem_of_fmap.
    done.
  - intros i _. apply NoDup_fmap; [|done]. by intros ?? [=].
Qed.

Lemma length_ndindex (shp : list Z) :
  Forall (fun n => 0 <= n) shp ->
  length (ndindex shp) = Z.to_nat (cell_count shp).
Proof.
  induction 1 as [|n shp Hn Hshp IH]; [done|].
  rewrite ndindex_cons. cbn [cell_count foldr]. fold (cell_count shp).
  assert (Hlen : forall l : list Z,
    length (l ≫= fun i => cons i <$> ndindex shp)
    = (length l * length (ndindex shp))%nat).
  { induction l as [|i l IHl]; csimpl; [done|].
    by rewrite length_app, length_fmap, IHl. }
  rewrite Hlen, length_seqZ, IH.
  assert (0 <= cell_count shp).
  { clear -Hshp. induction Hshp as [|m shp Hm _ IHs]; cbn; [lia|].
    fold (cell_count shp). lia. }
  rewrite Z2Nat.inj_mul by lia. done.
Qed.

Lemma full_size {A} (shp : list Z) (v : A) (arr : ndarray A) :
  full shp v = Ok arr -> size (data arr) = Z.to_nat (cell_count shp).
Proof.
  intros [Hpos ->]%full_inv. cbn [data].
  rewrite map_size_list_to_map.
  - by rewrite length_fmap, length_ndindex.
  - replace (((fun c => (c, v)) <$> ndindex shp).*1) with (ndindex shp);
      [apply NoDup_ndindex|].
    rewrite <- list_fmap_compose. symmetry. apply list_fmap_id.
Qed.

Lemma ft_bins_nonneg (fts : list FeatureDimension.t) :
  Forall (fun n => 0 <= n) (ft_bins fts) <->
  Forall (fun ft => FeatureDimension.bins ft <> []) fts.
Proof.
  unfold ft_bins. rewrite Forall_fmap. apply Forall_iff. intros ft. cbn.
  destruct (FeatureDimension.bins ft); cbn; split; (done || lia).
Qed.

Lemma ft_bins_negative (fts : list FeatureDimension.t) :
  forallb (fun n => 0 <=? n) (ft_bins fts) = false ->
  exists ft, ft ∈ fts /\ FeatureDimension.bins ft = [].
Proof.
  induction fts as [|ft fts IH]; cbn; [discriminate|].
  destruct (FeatureDimension.bins ft) eqn:E.
  - intros _. exists ft. split; [left|done].
  - cbn [length]. replace (0 <=? Z.of_nat (S (length l)) - 1) with true
      by (symmetry; apply Z.leb_le; lia).
    cbn. intros (ft' & Hin & Hb)%IH. exists ft'. split; [by right|done].
Qed.

(** X6: what the constructor returns. When it returns an archive, every
    feature dimension has at least one bin edge (a dimension with empty
    [bins] keeps the constructor from returning), both grids have one cell
    per combination of bins (the product of [len(bins) - 1] over the
    dimensions), and every cell is empty: none holds another genotype than
    the sentinel, and none is occupied for the selector. *)
Theorem constructed_archive `{P : Problem}
    (iterations random_solutions : nat) (minimization : bool) (self : MapElites.t) :
  __init__ iterations random_solutions minimization = Ok self ->
  Forall (fun ft => FeatureDimension.bins ft <> []) (feature_dimensions self) /\
  size (data (performances self))
    = Z.to_nat (cell_count (ft_bins (feature_dimensions self))) /\
  size (data (solutions self))
    = Z.to_nat (cell_count (ft_bins (feature_dimensions self))) /\
  occupied_cells self = ∅ /\
  Cells.non_sentinel_cells self = ∅.
Proof.
  intros E.
  pose proof (init_Ok _ _ _ _ E) as (Hwf & _ & _ & Hsent).
  unfold __init__ in E. destruct (negb _ || negb _); [discriminate|].
  cbn zeta in E.
  destruct (full _ (inf, inf)) as [sols|] eqn:Es; [|discriminate].
  cbn [mbind result_bind] in E.
  destruct (full _ inf) as [perfs|] eqn:Ep; [|discriminate].
  cbn [mbind result_bind] in E. injection E as <-. cbn.
  split; [|split; [|split; [|split]]].
  - apply ft_bins_nonneg. by apply full_inv in Es as [? _].
  - by eapply full_size.
  - by eapply full_size.
  - apply map_empty. intros c. apply map_lookup_filter_None. right.
    intros g Hg. cbn. by rewrite (Hsent c g Hg).
  - apply map_empty. intros c. apply map_lookup_filter_None. right.
    intros g Hg. cbn. by rewrite (Hsent c g Hg).
Qed.

End Grid.

(** ** Occupancy *)

Section Occupancy.
Import Archive.
Context `{P : Problem}.

Lemma occupied_cells_insert self self' (c : list Z) (x : genotype) :
  data (solutions self') = <[c := x]> (data (solutions self)) ->
  occupied_cells self' =
    if initialized x then <[c := x]> (occupied_cells self)
    else delete c (occupied_cells self).
Proof.
  intros H. unfold occupied_cells. rewrite H, map_filter_insert. cbn.
  destruct (initialized x); [by rewrite decide_True|].
  rewrite decide_False by done. apply map_filter_delete.
Qed.

(** X7: one placement changes the number of occupied cells by at most
    one; a candidate whose genes are all finite never lowers it; and a
    candidate with an infinite gene that wins its cell leaves the cell
    empty in the eyes of the selector. *)
Theorem placement_occupancy (self self' : MapElites.t) (x : genotype) :
  well_formed self ->
  place_in_mapelites self x = Ok self' ->
  (size (occupied_cells self') <= S (size (occupied_cells self)))%nat /\
  (size (occupied_cells self) <= S (size (occupied_cells self')))%nat /\
  (initialized x = true ->
     (size (occupied_cells self) <= size (occupied_cells self'))%nat) /\
  (initialized x = false -> self' <> self ->
     forall b c, map_x_to_b x = Ok b ->
       normalize_index (ft_bins (feature_dimensions self)) b = Some c ->
       occupied_cells self' !! c = None).
Proof.
  intros Hwf Hpl.
  destruct (place_in_mapelites_data _ _ _ Hwf Hpl)
    as (b & c & inc & Hb & Hc & Hinc & _ & _ & _ & Hcase).
  destruct (beats _ _ inc).
  - destruct Hcase as [_ Hsol].
    rewrite (occupied_cells_insert self self' c x Hsol).
    destruct (initialized x) eqn:Hinit.
    + rewrite map_size_insert.
      destruct (occupied_cells self !! c); cbn; repeat split; try lia; done.
    + rewrite map_size_delete.
      destruct (occupied_cells self !! c) eqn:Hocc; cbn;
        (repeat split; try lia; try done).
      * intros _ _ b' c' Hb' Hc'. rewrite Hb in Hb'. injection Hb' as <-.
        rewrite Hc in Hc'. injection Hc' as <-. apply lookup_delete_eq.
      * intros _ _ b' c' Hb' Hc'. rewrite Hb in Hb'. injection Hb' as <-.
        rewrite Hc in Hc'. injection Hc' as <-. apply lookup_delete_eq.
  - subst self'. repeat split; try lia; done.
Qed.

Lemma place_all_occupancy (self self' : MapElites.t) (xs : list genotype) :
  well_formed self ->
  place_all self xs = Ok self' ->
  (size (occupied_cells self') <= size (occupied_cells self) + length xs)%nat.
Proof.
  revert self. induction xs as [|x xs IH]; intros self Hwf; cbn.
  - intros [= <-]. lia.
  - destruct (place_in_mapelites self x) as [self1|] eqn:E; [|discriminate].
    cbn [mbind result_bind]. intros Hall.
    destruct (place_in_mapelites_well_formed _ _ _ Hwf E) as (Hwf1 & _ & _).
    destruct (place_in_mapelites_data _ _ _ Hwf E)
      as (b & c & inc & _ & _ & _ & _ & _ & _ & Hcase).
    specialize (IH self1 Hwf1 Hall).
    assert (size (occupied_cells self1) <= S (size (occupied_cells self)))%nat; [|lia].
    destruct (beats _ _ inc); [|subst; lia].
    destruct Hcase as [_ Hsol].
    rewrite (occupied_cells_insert self self1 c x Hsol).
    destruct (initialized x).
    + rewrite map_size_insert. destruct (occupied_cells self !! c); cbn; lia.
    + rewrite map_size_delete. destruct (occupied_cells self !! c); cbn; lia.
Qed.

End Occupancy.

(** ** Further properties of discretize *)

Section DiscretizeExtras.
Implicit Types (arr bins : list float) (key value : float).

(** The search stays in the interval it is given, whatever the array. *)
Lemma binsearch_bounds (s : side) arr key (lo hi : nat) :
  (lo <= hi)%nat -> (lo <= binsearch s arr key lo hi <= hi)%nat.
Proof.
  funelim (binsearch s arr key lo hi); intros Hr.
  - lia.
  - pose proof (midpoint_bounds _ _ l) as Hmid.
    assert (S (min_idx + (max_idx - min_idx) / 2) <= max_idx)%nat as H1 by lia.
    specialize (H H1). lia.
  - pose proof (midpoint_bounds _ _ l) as Hmid.
    assert (min_idx <= min_idx + (max_idx - min_idx) / 2)%nat as H1 by lia.
    specialize (H H1). lia.
Qed.

Lemma digitize_bounds value bins (index : nat) :
  digitize value bins = Ok index -> (index <= length bins)%nat.
Proof.
  unfold digitize, searchsorted. repeat case_decide; intros [= <-].
  - lia.
  - pose proof (binsearch_bounds side_right bins value 0 (length bins)). lia.
Qed.

Lemma discretize_axis (ft : FeatureDimension.t) value (i : Z) :
  FeatureDimension.discretize ft value = Ok i ->
  0 <= i < Z.of_nat (length (FeatureDimension.bins ft)) - 1.
Proof.
  unfold FeatureDimension.discretize.
  destruct (digitize value _) as [index|] eqn:E; [|discriminate].
  cbn [mbind result_bind]. apply digitize_bounds in E.
  case_decide as Hin; [discriminate|]. intros [= <-].
  rewrite !not_elem_of_cons in Hin. lia.
Qed.

(** X8: coordinates made of what [discretize] returns, one feature
    dimension after the other, always address a cell of the grid the
    constructor allocates for these dimensions ([len(bins) - 1] cells per
    axis), whatever the bins and the values are: such coordinates are never
    out of bounds. *)
Theorem discretized_coordinates_in_grid
    (fts : list FeatureDimension.t) (values : list float) (b : list Z) :
  Forall3 (fun ft value i => FeatureDimension.discretize ft value = Ok i)
    fts values b ->
  b ∈ ndindex (ft_bins fts) /\ normalize_index (ft_bins fts) b = Some b.
Proof.
  intros H. assert (Hin : b ∈ ndindex (ft_bins fts)); [|by split; [|apply normalize_index_id]].
  apply elem_of_ndindex. induction H as [|ft value i fts values b Hd _ IH]; cbn.
  - constructor.
  - constructor; [|done]. by eapply discretize_axis.
Qed.

Lemma discretize_increasing (self : FeatureDimension.t) value :
  strictly_increasing (FeatureDimension.bins self) = true ->
  FeatureDimension.discretize self value =
    let r := searchsorted (FeatureDimension.bins self) value side_right in
    if decide (r = 0%nat \/ r = length (FeatureDimension.bins self))
    then Raise (Exception "value outside of bins")
    else Ok (Z.of_nat r - 1).
Proof.
  intros Hinc. unfold FeatureDimension.discretize.
  rewrite (digitize_increasing _ value Hinc). cbn [mbind result_bind]. cbn zeta.
  case_decide as Hin; case_decide as Hor; try done.
  - exfalso. apply Hor. rewrite !elem_of_cons in Hin.
    destruct Hin as [?|[?|Hin]]; auto. by apply elem_of_nil in Hin.
  - exfalso. apply Hin. destruct Hor as [->| ->]; [left|right; left].
Qed.

(** X9: over strictly increasing real edges [discretize] is monotone: of
    two values with [v <= w] that both fall inside the bins, [v] gets the
    lower or the same bin index. *)
Theorem discretize_monotone (self : FeatureDimension.t) (v w : float) (i j : Z) :
  strictly_increasing (FeatureDimension.bins self) = true ->
  forallb (fun x => negb (is_nan x)) (FeatureDimension.bins self) = true ->
  float_le v w = true ->
  FeatureDimension.discretize self v = Ok i ->
  FeatureDimension.discretize self w = Ok j ->
  i <= j.
Proof.
  set (bins := FeatureDimension.bins self). intros Hinc Hreal Hvw.
  pose proof (strictly_increasing_sorted bins Hinc Hreal) as Hsorted.
  apply float_le_spec in Hvw as Hnan. destruct Hnan as (Hv & Hw & _).
  rewrite !(discretize_increasing self _ Hinc). fold bins. cbn zeta.
  destruct (binsearch_right_spec bins v 0 (length bins) Hsorted Hv)
    as (Hrv & Hbelow_v & _); [lia|intros; lia|intros; lia|].
  destruct (binsearch_right_spec bins w 0 (length bins) Hsorted Hw)
    as (Hrw & _ & Habove_w); [lia|intros; lia|intros; lia|].
  fold (searchsorted bins v side_right) in Hrv, Hbelow_v.
  fold (searchsorted bins w side_right) in Hrw, Habove_w.
  set (rv := searchsorted bins v side_right) in *.
  set (rw := searchsorted bins w side_right) in *.
  repeat case_decide; try discriminate. intros [= <-] [= <-].
  destruct (decide (rv <= rw)%nat); [lia|]. exfalso.
  assert (H1 : float_le (nth rw bins nan) v = true) by (apply Hbelow_v; lia).
  assert (H2 : float_lt w (nth rw bins nan) = true) by (apply Habove_w; lia).
  pose proof (float_lt_not_ge _ _ (float_lt_le_trans _ _ _ H2 H1)) as H3.
  unfold float_ge in H3. change (SFleb v w) with (float_le v w) in H3.
  congruence.
Qed.

Lemma strictly_decreasing_cons (x : float) (a : list float) :
  strictly_decreasing (x :: a) = true ->
  strictly_decreasing a = true /\
  forall j, (j < length a)%nat -> float_lt (nth j a nan) x = true.
Proof.
  revert x. induction a as [|y a IH]; intros x H.
  - split; [done|]. cbn. lia.
  - cbn [strictly_decreasing] in H. apply andb_true_iff in H as [Hxy Ha].
    change (strictly_decreasing (y :: a) = true) in Ha.
    split; [done|]. intros [|j] Hj; cbn; [done|].
    destruct (IH y Ha) as [_ Hy]. eapply float_lt_trans; [|exact Hxy].
    apply Hy. cbn in Hj. lia.
Qed.

Lemma strictly_decreasing_gt (a : list float) (i j : nat) :
  strictly_decreasing a = true -> (i < j < length a)%nat ->
  float_lt (nth j a nan) (nth i a nan) = true.
Proof.
  revert i j. induction a as [|x a IH]; intros i j H Hij; [cbn in Hij; lia|].
  destruct (strictly_decreasing_cons x a H) as [Ha Hx].
  destruct i as [|i], j as [|j]; cbn in Hij |- *; try lia.
  - apply Hx. lia.
  - apply IH; [done|lia].
Qed.

Lemma strictly_decreasing_rev_sorted (a : list float) :
  strictly_decreasing a = true ->
  forallb (fun x => negb (is_nan x)) a = true ->
  sorted (rev a).
Proof.
  intros Hdec Hreal i j. rewrite length_rev. intros Hij.
  rewrite !rev_nth by lia.
  destruct (decide (i = j)) as [->|Hne].
  - apply float_le_refl. rewrite forallb_forall in Hreal.
    apply negb_true_iff, Hreal, nth_In. lia.
  - apply float_lt_le, strictly_decreasing_gt; [done|lia].
Qed.

Lemma check_array_monotonic_decreasing (a : list float) :
  strictly_decreasing a = true -> (2 <= length a)%nat ->
  check_array_monotonic a = -1.
Proof.
  destruct a as [|last [|next rest]]; cbn [length]; try lia. intros H _.
  destruct (strictly_decreasing_cons _ _ H) as [Hrest Hlast].
  assert (Hnl : float_lt next last = true) by (apply (Hlast 0%nat); cbn; lia).
  assert (Hno : forall u v : float,
            float_lt u v = true -> float_lt v u = true -> False).
  { intros u v H1 H2. pose proof (float_lt_not_ge _ _ H1) as H3.
    apply float_lt_le in H2. unfold float_ge in H3.
    change (SFleb v u) with (float_le v u) in H3. congruence. }
  cbn [check_array_monotonic skip_repeated].
  assert (float_eq next last = false) as ->.
  { destruct (float_eq next last) eqn:E; [|done].
    apply float_eq_not_lt in E. congruence. }
  assert (float_lt last next = false) as ->.
  { destruct (float_lt last next) eqn:E; [|done]. destruct (Hno _ _ E Hnl). }
  assert (no_ascent next rest = true) as ->; [|done].
  clear -Hrest Hno. revert next Hrest.
  induction rest as [|y rest IH]; intros next H; [done|].
  destruct (strictly_decreasing_cons _ _ H) as [Hrest Hnext].
  cbn [no_ascent].
  assert (float_lt y next = true) as Hyn by (apply (Hnext 0%nat); cbn; lia).
  assert (float_lt next y = false) as ->; [|by apply IH].
  destruct (float_lt next y) eqn:E; [|done]. destruct (Hno _ _ E Hyn).
Qed.

(** X10: strictly decreasing real edges [bins[0] > ... > bins[k]] are
    accepted as they are, and the bins are then closed at their lower
    edge, which is the second one: for a real [value], [discretize] raises
    exactly when [value >= bins[0]] or [value < bins[k]], and otherwise
    returns the bin index [i] with [bins[i] > value >= bins[i+1]]. *)
Theorem discretize_decreasing (self : FeatureDimension.t) value (k : nat) :
  length (FeatureDimension.bins self) = S k ->
  strictly_decreasing (FeatureDimension.bins self) = true ->
  forallb (fun x => negb (is_nan x)) (FeatureDimension.bins self) = true ->
  is_nan value = false ->
  (raises (FeatureDimension.discretize self value) = true <->
     float_ge value (nth 0 (FeatureDimension.bins self) nan) = true \/
     float_lt value (nth k (FeatureDimension.bins self) nan) = true) /\
  (forall i : Z, FeatureDimension.discretize self value = Ok i ->
     0 <= i < Z.of_nat k /\
     float_gt (nth (Z.to_nat i) (FeatureDimension.bins self) nan) value = true /\
     float_ge value (nth (S (Z.to_nat i)) (FeatureDimension.bins self) nan) = true).
Proof.
  set (bins := FeatureDimension.bins self). intros Hlen Hdec Hreal Hvalue.
  assert (Hk : is_nan (nth k bins nan) = false).
  { rewrite forallb_forall in Hreal. apply negb_true_iff, Hreal, nth_In. lia. }
  destruct k as [|k].
  - (* a single edge: there is no bin *)
    split.
    + split.
      * intros _. destruct (float_lt value (nth 0 bins nan)) eqn:E; [by right|].
        left. by apply float_lt_false.
      * intros _. destruct (FeatureDimension.discretize self value) as [i|] eqn:E;
          [|done]. apply discretize_axis in E. fold bins in E. rewrite Hlen in E. lia.
    + intros i E. apply discretize_axis in E. fold bins in E. rewrite Hlen in E. lia.
  - pose proof (strictly_decreasing_rev_sorted bins Hdec Hreal) as Hsorted.
    destruct (binsearch_right_spec (rev bins) value 0 (length (rev bins)) Hsorted Hvalue)
      as (Hr & Hbelow & Habove); [lia|intros; lia|intros; lia|].
    fold (searchsorted (rev bins) value side_right) in Hr, Hbelow, Habove.
    set (r := searchsorted (rev bins) value side_right) in *.
    rewrite length_rev, Hlen in Hr, Habove.
    assert (Hrev : forall n, (n < S (S k))%nat ->
              nth n (rev bins) nan = nth (S k - n) bins nan).
    { intros n Hn. rewrite rev_nth by lia. f_equal. lia. }
    assert (Hd : FeatureDimension.discretize self value =
                 if decide (r = 0%nat \/ r = S (S k))
                 then Raise (Exception "value outside of bins")
                 else Ok (Z.of_nat (S k - r))).
    { unfold FeatureDimension.discretize, digitize. fold bins.
      rewrite (check_array_monotonic_decreasing bins Hdec) by lia.
      rewrite decide_False by done. rewrite decide_True by done.
      fold r. cbn [mbind result_bind]. rewrite Hlen.
      case_decide as Hin; case_decide as Hor; try done.
      - exfalso. apply Hor. rewrite !elem_of_cons in Hin.
        destruct Hin as [?|[?|Hin]]; [right; lia|left; lia|].
        by apply elem_of_nil in Hin.
      - exfalso. apply Hin. destruct Hor as [H0|Hfull].
        + rewrite H0, Nat.sub_0_r. right; left.
        + rewrite Hfull, Nat.sub_diag. left.
      - f_equal. lia. }
    assert (Hno : forall u v : float,
              float_lt u v = true -> float_le v u = true -> False).
    { intros u v H1 H2. pose proof (float_lt_not_ge _ _ H1) as H3.
      unfold float_ge in H3. change (SFleb v u) with (float_le v u) in H3.
      congruence. }
    split.
    + rewrite Hd. split.
      * case_decide as Hor; [|done]. intros _. destruct Hor as [H0|Hfull].
        -- right. specialize (Habove 0%nat). rewrite Hrev in Habove by lia.
           rewrite Nat.sub_0_r in Habove. apply Habove. lia.
        -- left. specialize (Hbelow (S k)). rewrite Hrev in Hbelow by lia.
           rewrite Nat.sub_diag in Hbelow. apply Hbelow. lia.
      * intros [Hge|Hlt]; case_decide as Hor; try done; exfalso.
        -- specialize (Habove (S k)). rewrite Hrev in Habove by lia.
           rewrite Nat.sub_diag in Habove. eapply Hno; [apply Habove; lia|done].
        -- specialize (Hbelow 0%nat). rewrite Hrev in Hbelow by lia.
           rewrite Nat.sub_0_r in Hbelow. eapply Hno; [exact Hlt|apply Hbelow; lia].
    + intros i. rewrite Hd. case_decide as Hor; [discriminate|]. intros [= <-].
      rewrite Nat2Z.id. split; [lia|]. split.
      * specialize (Habove r). rewrite Hrev in Habove by lia. apply Habove. lia.
      * specialize (Hbelow (r - 1)%nat). rewrite Hrev in Hbelow by lia.
        replace (S k - (r - 1))%nat with (S (S k - r)) in Hbelow by lia.
        apply Hbelow. lia.
Qed.

End DiscretizeExtras.

(** ** Further properties of random_selection and of seeding *)

Section SelectionExtras.
Implicit Types (self : MapElites.t) (rnd : tape) (idxs : list (list Z))
  (inds : list genotype).

(** X11: on a well-formed archive whose axes all have at least one bin,
    [random_selection] never raises: within any number of draws it has
    either returned or not stopped yet. *)
Theorem random_selection_never_raises (fuel : nat) self rnd (individuals pos : nat) :
  well_formed self -> drawable self ->
  random_selection fuel self rnd individuals pos = None \/
  exists inds pos',
    random_selection fuel self rnd individuals pos = Some (Ok (inds, pos')).
Proof.
  intros Hwf Hdraw. unfold random_selection.
  destruct (select_loop_no_raise fuel self rnd individuals [] [] pos Hwf Hdraw)
    as [->|[[[idxs inds] pos'] ->]]; eauto.
Qed.

Lemma random_index_loop_empty_axis rnd (fts : list FeatureDimension.t)
    (indexes : list Z) (pos : nat) :
  Exists (fun n => n <= 0) (ft_bins fts) ->
  random_index_loop rnd fts indexes pos = Raise (ValueError "low >= high").
Proof.
  revert indexes pos. induction fts as [|ft fts IH]; intros indexes pos H;
    cbn in H |- *; [by apply Exists_nil in H|].
  unfold randint. case_decide as Hlow; [|done]. cbn.
  apply Exists_cons in H as [H|H]; [lia|]. by apply IH.
Qed.

(** X12: when some axis of the grid has no bin (a feature dimension with a
    single bin edge), selecting at least one individual raises the
    [ValueError] of [np.random.randint] at the first draw, instead of
    looping. *)
Theorem random_selection_empty_axis (fuel : nat) self rnd (individuals pos : nat) :
  Exists (fun n => n <= 0) (ft_bins (feature_dimensions self)) ->
  (1 <= individuals)%nat ->
  random_selection fuel self rnd individuals pos
    = Some (Raise (ValueError "low >= high")).
Proof.
  intros Haxis Hn. destruct individuals as [|n]; [lia|].
  unfold random_selection, _get_random_index. cbn [select_loop].
  unfold _get_random_index. by rewrite random_index_loop_empty_axis.
Qed.

(** X13: asking for as many individuals as there are occupied cells
    returns every elite of the archive: each occupied cell's genotype is
    in the result. *)
Theorem random_selection_of_all (fuel : nat) self rnd (pos pos' : nat) inds :
  well_formed self ->
  random_selection fuel self rnd (size (occupied_cells self)) pos
    = Some (Ok (inds, pos')) ->
  forall c g, occupied_cells self !! c = Some g -> g ∈ inds.
Proof.
  intros Hwf. unfold random_selection.
  destruct (select_loop fuel self rnd _ [] [] pos)
    as [[[[idxs inds1] pos1]|]|] eqn:E; try discriminate.
  intros [= <- <-] c g Hg.
  assert (Hnil : chosen self [] []) by (split; constructor).
  destruct (select_loop_Ok _ _ _ _ _ _ _ _ _ _ Hwf Hnil E) as [[Hnd Hall] Hlen].
  cbn in Hlen. pose proof (Forall2_length _ _ _ Hall) as Hlen'.
  assert (Hsub : list_to_set idxs ⊆ dom (occupied_cells self)).
  { intros c' Hc'%elem_of_list_to_set. apply elem_of_dom.
    apply list_elem_of_lookup in Hc' as [i Hi].
    destruct (Forall2_lookup_l _ _ _ _ _ Hall Hi) as (g' & _ & Hg'). eauto. }
  assert (Heq : list_to_set idxs = dom (occupied_cells self)).
  { apply set_subseteq_size_eq; [done|].
    rewrite size_dom, (size_list_to_set idxs Hnd). lia. }
  assert (Hc : c ∈ idxs).
  { apply (elem_of_list_to_set (C := gset (list Z))). rewrite Heq.
    apply elem_of_dom. eauto. }
  apply list_elem_of_lookup in Hc as [i Hi].
  destruct (Forall2_lookup_l _ _ _ _ _ Hall Hi) as (g' & Hi' & Hg').
  rewrite Hg in Hg'. injection Hg' as <-.
  apply list_elem_of_lookup. eauto.
Qed.

End SelectionExtras.

Section SeedingExtras.
Context `{P : Problem}.

(** X14: seeding is the placement of the generated solutions in the order
    of their generation, so that after seeding [G] random solutions from
    the constructed archive at most [G] cells are occupied, and a
    selection of more than [G] individuals never returns. *)
Theorem seeding_occupies_at_most_G
    (iterations random_solutions : nat) (minimization : bool)
    (self0 self : MapElites.t) (rnd : tape) (pos pos' : nat) :
  __init__ iterations random_solutions minimization = Ok self0 ->
  generate_initial_population self0 rnd pos = Ok (self, pos') ->
  place_all self0 (generated random_solutions rnd pos).1 = Ok self /\
  (size (occupied_cells self) <= random_solutions)%nat /\
  forall fuel rnd' (n pos1 : nat) res,
    (random_solutions < n)%nat ->
    random_selection fuel self rnd' n pos1 <> Some (Ok res).
Proof.
  intros Hinit Hseed.
  pose proof (init_Ok _ _ _ _ Hinit) as (Hwf0 & _ & _ & Hsent).
  assert (Hrs : MapElites.random_solutions self0 = random_solutions).
  { unfold __init__ in Hinit. destruct (negb _ || negb _); [discriminate|].
    cbn zeta in Hinit. destruct (full _ (inf, inf)); [|discriminate].
    cbn [mbind result_bind] in Hinit. destruct (full _ inf); [|discriminate].
    by injection Hinit as <-. }
  rewrite generate_initial_population_places, Hrs in Hseed.
  destruct (place_all self0 _) as [self1|] eqn:Hall; [|discriminate].
  cbn [mbind result_bind] in Hseed. injection Hseed as -> _.
  destruct (place_all_well_formed _ _ _ Hwf0 Hall) as (Hwf & _ & _).
  assert (Hocc0 : occupied_cells self0 = ∅).
  { apply map_empty. intros c. apply map_lookup_filter_None. right.
    intros g Hg. cbn. by rewrite (Hsent c g Hg). }
  assert (Hbound : (size (occupied_cells self) <= random_solutions)%nat).
  { pose proof (place_all_occupancy _ _ _ Hwf0 Hall) as H.
    rewrite Hocc0, map_size_empty in H.
    assert (Hlen : forall n p, length (generated n rnd p).1 = n).
    { clear. induction n as [|n IH]; intros p; cbn; [done|].
      destruct (generate_random_solution rnd p) as [x p1].
      specialize (IH p1). destruct (generated n rnd p1). cbn in *. lia. }
    rewrite Hlen in H. lia. }
  split; [done|]. split; [done|].
  intros fuel rnd' n pos1 [inds pos2] Hn. unfold random_selection.
  destruct (select_loop fuel self rnd' n [] [] pos1)
    as [[[[idxs inds1] pos3]|]|] eqn:E; try discriminate.
  intros [= <- <-].
  assert (Hnil : chosen self [] []) by (split; constructor).
  destruct (select_loop_Ok _ _ _ _ _ _ _ _ _ _ Hwf Hnil E) as [Hch Hlen].
  pose proof (chosen_bound self idxs inds1 Hch) as Hb.
  destruct Hch as [_ Hall2]. apply Forall2_length in Hall2. cbn in Hlen. lia.
Qed.

End SeedingExtras.

(** ** The plot *)

Section Plot.
Import Orchestrator.
Context `{P : Problem} `{C : Collaborators}.

Lemma length_stringify_bin_axis (bins : list float) :
  length (stringify_bin_axis bins) = (length bins - 1)%nat.
Proof.
  unfold stringify_bin_axis.
  rewrite length_tl, length_fmap, !length_zip, length_seq. cbn [length]. lia.
Qed.

(** X15: [stringify_bin_axis] gives one label per bin, [len(bins) - 1] of
    them (none for fewer than two edges); the label of the bin [j] that
    [discretize] numbers from 0 is numbered [j + 1] and names the edges
    [bins[j]] and [bins[j+1]], so that the 0 padded in front of the edges
    never shows. *)
Theorem stringify_bin_axis_spec (bins : list float) (j : nat) :
  length (stringify_bin_axis bins) = (length bins - 1)%nat /\
  stringify_bin_axis bins !! j =
    if decide (S j < length bins)%nat
    then Some (format_label (S j) (nth j bins nan) (nth (S j) bins nan))
    else None.
Proof.
  split; [apply length_stringify_bin_axis|].
  case_decide as Hj.
  - unfold stringify_bin_axis. rewrite lookup_tail, list_lookup_fmap.
    assert (H1 : seq 0 (length bins) !! S j = Some (S j))
      by (by rewrite lookup_seq_lt).
    destruct (lookup_lt_is_Some_2 bins j) as [a Ha]; [lia|].
    destruct (lookup_lt_is_Some_2 bins (S j)) as [b Hb]; [lia|].
    assert (H2 : (zero :: bins) !! S j = Some a) by done.
    rewrite lookup_zip_with. rewrite lookup_zip_with. rewrite H1, H2, Hb. cbn.
    by rewrite (nth_lookup_Some _ _ _ _ Ha), (nth_lookup_Some _ _ _ _ Hb).
  - apply lookup_ge_None. rewrite length_stringify_bin_axis. lia.
Qed.

(** X16: on a well-formed archive whose feature dimensions all have a bin
    edge, the labels handed to [plot_heatmap] fit the performance grid:
    as many [x] labels as the first axis has cells, and as many [y] labels
    as the second axis has; a one-dimensional archive gets the single [y]
    label ["a"]; an archive without feature dimensions makes the call
    raise [IndexError]. Axes beyond the second get no labels. *)
Theorem heatmap_axes_fit_grid (self : MapElites.t) :
  well_formed self ->
  Forall (fun ft => FeatureDimension.bins ft <> []) (feature_dimensions self) ->
  match shape (performances self) with
  | [] => heatmap_axes self = Raise (IndexError "list index out of range")
  | [n] => exists x_ax, heatmap_axes self = Ok (x_ax, ["a"]) /\
             Z.of_nat (length x_ax) = n
  | n :: m :: _ => exists x_ax y_ax, heatmap_axes self = Ok (x_ax, y_ax) /\
             Z.of_nat (length x_ax) = n /\ Z.of_nat (length y_ax) = m
  end.
Proof.
  intros (_ & _ & [-> _]) Hbins. unfold heatmap_axes.
  assert (Hlen : forall ft, ft ∈ feature_dimensions self ->
    Z.of_nat (length (stringify_bin_axis (FeatureDimension.bins ft)))
    = Z.of_nat (length (FeatureDimension.bins ft)) - 1).
  { intros ft Hft. rewrite length_stringify_bin_axis.
    rewrite Forall_forall in Hbins. specialize (Hbins ft Hft).
    destruct (FeatureDimension.bins ft); [done|]. cbn [length]. lia. }
  destruct (feature_dimensions self) as [|ft0 [|ft1 rest]]; cbn.
  - done.
  - eexists. split; [done|]. apply Hlen. left.
  - eexists _, _. split; [done|]. split; apply Hlen; [left|right; left].
Qed.

End Plot.

(** ** The main loop *)

Section Run.
Import Archive Orchestrator.
Context `{P : Problem} `{C : Collaborators}.
Implicit Types (self : MapElites.t) (rnd : tape).

(** A call changes the grids only. *)
Lemma place_in_mapelites_attributes self x self' :
  place_in_mapelites self x = Ok self' ->
  feature_dimensions self' = feature_dimensions self /\
  iterations self' = iterations self /\
  random_solutions self' = random_solutions self /\
  minimization self' = minimization self.
Proof.
  unfold place_in_mapelites.
  destruct (map_x_to_b x); [|discriminate]. cbn [mbind result_bind].
  destruct (getitem _ _); [|discriminate]. cbn [mbind result_bind].
  destruct (call_operator _ _ _) as [[]|]; try discriminate; cbn [mbind result_bind].
  - destruct (setitem (performances self) _ _); [|discriminate]. cbn [mbind result_bind].
    destruct (setitem (solutions self) _ _); [|discriminate]. cbn [mbind result_bind].
    by intros [= <-].
  - by intros [= <-].
Qed.

Lemma initial_population_loop_attributes (n : nat) self rnd (pos : nat) self' (pos' : nat) :
  initial_population_loop n self rnd pos = Ok (self', pos') ->
  feature_dimensions self' = feature_dimensions self /\
  iterations self' = iterations self.
Proof.
  revert self pos. induction n as [|n IH]; intros self pos; cbn.
  - by intros [= <- <-].
  - destruct (generate_random_solution rnd pos) as [x pos1].
    destruct (place_in_mapelites self x) as [self1|] eqn:E; [|discriminate].
    cbn [mbind result_bind]. intros H%IH.
    apply place_in_mapelites_attributes in E. destruct H, E as (? & ? & _).
    split; congruence.
Qed.

Lemma evolve_attributes (fuel n : nat) self rnd (pos : nat) self' (pos' : nat) :
  evolve fuel n self rnd pos = Some (Ok (self', pos')) ->
  feature_dimensions self' = feature_dimensions self.
Proof.
  revert self pos. induction n as [|n IH]; intros self pos; cbn [evolve].
  - by intros [= <- <-].
  - cbn [stopping_criteria].
    destruct (select_loop fuel self rnd 1 [] [] pos) as [[[[idxs inds] pos1]|]|];
      try discriminate.
    destruct idxs as [|idx idxs], inds as [|ind inds]; try discriminate.
    destruct mutation_args as [args|]; [|discriminate].
    destruct (mutation_op ind args rnd pos1) as [[m pos2]|]; [|discriminate].
    destruct (setitem _ _ _) as [solutions'|]; [|discriminate]. cbn zeta.
    destruct (offspring m) as [|child ?]; [discriminate|].
    destruct (place_in_mapelites _ child) as [self2|] eqn:E; [|discriminate].
    intros H%IH. apply place_in_mapelites_attributes in E as (E & _).
    cbn in E. congruence.
Qed.

(** The lists the loop of the selection builds grow by one per individual. *)
Lemma select_loop_lengths (fuel : nat) self rnd (n : nat)
    (idxs : list (list Z)) (inds : list genotype) (pos : nat)
    idxs' inds' (pos' : nat) :
  select_loop fuel self rnd n idxs inds pos = Some (Ok (idxs', inds', pos')) ->
  length idxs' = (length idxs + n)%nat /\ length inds' = (length inds + n)%nat.
Proof.
  revert idxs inds pos. induction n as [|n IH]; intros idxs inds pos; cbn [select_loop].
  - intros [= <- <- <-]. lia.
  - destruct (_get_random_index self rnd pos) as [[idx pos1]|]; [|discriminate].
    destruct (redraw_loop fuel self rnd idxs idx pos1) as [[[idx' pos2]|]|];
      try discriminate.
    destruct (getitem (solutions self) idx'); [|discriminate].
    intros H%IH. rewrite !length_app in H. cbn in H. lia.
Qed.

(** With no occupied cell, the selection of one individual does not
    return. *)
Lemma select_loop_nothing_occupied (fuel : nat) self rnd (pos : nat) res :
  well_formed self -> occupied_cells self = ∅ ->
  select_loop fuel self rnd 1 [] [] pos <> Some (Ok res).
Proof.
  intros Hwf Hocc E. destruct res as [[idxs inds] pos'].
  assert (Hnil : chosen self [] []) by (split; constructor).
  destruct (select_loop_Ok _ _ _ _ _ _ _ _ _ _ Hwf Hnil E) as [Hch Hlen].
  pose proof (chosen_bound self idxs inds Hch) as Hb.
  destruct Hch as [_ Hall]. apply Forall2_length in Hall.
  rewrite Hocc, map_size_empty in Hb. cbn in Hlen. lia.
Qed.

Lemma evolve_nothing_occupied (fuel n : nat) self rnd (pos : nat) res :
  well_formed self -> occupied_cells self = ∅ ->
  evolve fuel (S n) self rnd pos <> Some (Ok res).
Proof.
  intros Hwf Hocc. cbn [evolve stopping_criteria].
  destruct (select_loop fuel self rnd 1 [] [] pos) as [[sel|]|] eqn:E;
    try discriminate.
  by destruct (select_loop_nothing_occupied fuel self rnd pos sel Hwf Hocc).
Qed.

Lemma init_attributes (it rs : nat) (m : bool) self :
  __init__ it rs m = Ok self ->
  iterations self = it /\ random_solutions self = rs /\ minimization self = m.
Proof.
  unfold __init__. destruct (negb _ || negb _); [discriminate|].
  cbn zeta. destruct (full _ (inf, inf)); [|discriminate].
  cbn [mbind result_bind]. destruct (full _ inf); [|discriminate].
  by intros [= <-].
Qed.

(** Under maximization a candidate whose performance is not [+infinity]
    leaves an archive of sentinels as it is. *)
Lemma place_all_maximization_unchanged self xs self' :
  well_formed self -> minimization self = false ->
  (forall c p, data (performances self) !! c = Some p -> p = inf) ->
  (forall x, x ∈ xs -> performance_measure x <> inf) ->
  place_all self xs = Ok self' -> self' = self.
Proof.
  intros Hwf Hmax Hinf. induction xs as [|x xs IH]; cbn; intros Hxs.
  - by intros [= <-].
  - destruct (place_in_mapelites self x) as [self1|] eqn:E; [|discriminate].
    cbn [mbind result_bind].
    destruct (place_in_mapelites_data _ _ _ Hwf E)
      as (b & c & inc & _ & _ & Hinc & _ & _ & _ & Hcase).
    rewrite Hmax, (Hinf _ _ Hinc) in Hcase. cbn [beats] in Hcase.
    destruct (float_ge _ inf) eqn:Hge.
    + apply float_ge_inf in Hge. destruct (Hxs x); [left|done].
    + subst self1. apply IH. intros x' Hx'. apply Hxs. by right.
Qed.

(** X17: a maximizing optimizer does not survive its first iteration: when
    no generated seed has the performance [+infinity], seeding leaves every
    cell empty, and [run] with at least one iteration never returns (the
    selection of the first iteration finds no elite). *)
Theorem run_under_maximization_never_returns
    (it rs : nat) (self0 : MapElites.t) rnd (pos : nat) :
  __init__ it rs false = Ok self0 ->
  (1 <= it)%nat ->
  (forall x, x ∈ (generated rs rnd pos).1 -> performance_measure x <> inf) ->
  forall fuel res, run fuel self0 rnd pos <> Some (Ok res).
Proof.
  intros Hinit Hit Hseeds fuel res.
  pose proof (init_Ok _ _ _ _ Hinit) as (Hwf0 & Hmin & Hinf & Hsent).
  pose proof (init_attributes _ _ _ _ Hinit) as (Hiter & Hrs & _).
  assert (Hocc0 : occupied_cells self0 = ∅).
  { apply map_empty. intros c. apply map_lookup_filter_None. right.
    intros g Hg. cbn. by rewrite (Hsent c g Hg). }
  unfold run. rewrite generate_initial_population_places, Hrs.
  destruct (place_all self0 _) as [self1|] eqn:Hall; [|discriminate].
  cbn [mbind result_bind].
  apply place_all_maximization_unchanged in Hall; [|done..]. subst self1.
  rewrite Hiter. destruct it as [|n]; [lia|].
  destruct (evolve fuel (S n) self0 rnd _) as [[sel|]|] eqn:E; try discriminate.
  destruct (evolve_nothing_occupied fuel n self0 rnd _ sel Hwf0 Hocc0 E).
Qed.

Lemma evolve_without_mutation_args (fuel n : nat) self rnd (pos : nat) :
  mutation_args = None ->
  evolve fuel (S n) self rnd pos =
    match select_loop fuel self rnd 1 [] [] pos with
    | None => None
    | Some (Raise e) => Some (Raise e)
    | Some (Ok _) => Some (Raise (TypeError
        "argument after ** must be a mapping, not NoneType"))
    end.
Proof.
  intros Hargs. cbn [evolve stopping_criteria].
  destruct (select_loop fuel self rnd 1 [] [] pos)
    as [[[[idxs inds] pos1]|e]|] eqn:E; try done.
  apply select_loop_lengths in E as [H1 H2].
  destruct idxs as [|idx idxs], inds as [|ind inds]; try (cbn in *; lia).
  by rewrite Hargs.
Qed.

(** X18: without mutation arguments ([mutation_args] is [None]) a [run]
    with at least one iteration never returns normally: as soon as the
    first selection returns, unpacking the arguments raises
    [TypeError]. *)
Theorem run_without_mutation_args self rnd (pos : nat) :
  mutation_args = None ->
  (1 <= iterations self)%nat ->
  forall fuel,
    (forall res, run fuel self rnd pos <> Some (Ok res)) /\
    (forall self1 pos1 sel,
       generate_initial_population self rnd pos = Ok (self1, pos1) ->
       random_selection fuel self1 rnd 1 pos1 = Some (Ok sel) ->
       run fuel self rnd pos = Some (Raise (TypeError
         "argument after ** must be a mapping, not NoneType"))).
Proof.
  intros Hargs Hit fuel. unfold run.
  destruct (generate_initial_population self rnd pos) as [[self1 pos1]|] eqn:Hseed;
    [|split; [done|intros ??? [=]]].
  apply initial_population_loop_attributes in Hseed as [_ Hiter]. rewrite Hiter.
  destruct (iterations self) as [|n]; [lia|].
  rewrite (evolve_without_mutation_args fuel n self1 rnd pos1 Hargs).
  unfold random_selection.
  destruct (select_loop fuel self1 rnd 1 [] [] pos1) as [[[[idxs inds] p]|e]|] eqn:E.
  all: split; [done|]; intros ??? [= <- <-]; rewrite E; by intros ?.
Qed.

(** X19: an optimizer without feature dimensions never finishes a [run]
    normally: whatever the iterations did, [plot_map_of_elites] reads
    [feature_dimensions[0]] at the very end and raises [IndexError]. *)
Theorem run_without_feature_dimensions self rnd (pos : nat) :
  feature_dimensions self = [] ->
  forall fuel,
    (forall res, run fuel self rnd pos <> Some (Ok res)) /\
    (forall self1 pos1 self2 pos2,
       generate_initial_population self rnd pos = Ok (self1, pos1) ->
       evolve fuel (iterations self1) self1 rnd pos1 = Some (Ok (self2, pos2)) ->
       save_logs self2 = Ok () ->
       run fuel self rnd pos = Some (Raise (IndexError "list index out of range"))).
Proof.
  intros Hfts fuel.
  assert (Hplot : forall self2, feature_dimensions self2 = [] ->
            plot_map_of_elites self2 = Raise (IndexError "list index out of range")).
  { intros self2 H. unfold plot_map_of_elites, heatmap_axes. by rewrite H. }
  unfold run.
  destruct (generate_initial_population self rnd pos) as [[self1 pos1]|] eqn:Hseed;
    [|split; [done|intros ???? [=]]].
  apply initial_population_loop_attributes in Hseed as [Hf1 _].
  split.
  - intros res.
    destruct (evolve fuel _ self1 rnd pos1) as [[[self2 pos2]|]|] eqn:E; try done.
    apply evolve_attributes in E as Hf2.
    rewrite (Hplot self2) by congruence.
    by destruct (save_logs self2).
  - intros ? ? self2 pos2 [= <- <-] E Hsave. rewrite E, Hsave.
    apply evolve_attributes in E as Hf2.
    by rewrite (Hplot self2) by congruence.
Qed.

(** Writing back what was read leaves the grid as it was. *)
Lemma setitem_selected self idx (ind : genotype) :
  well_formed self ->
  occupied_cells self !! idx = Some ind ->
  setitem (solutions self) idx ind = Ok (solutions self).
Proof.
  intros (_ & [Hshape Hdom] & _) [Hg _]%occupied_cells_lookup.
  assert (Hidx : idx ∈ ndindex (ft_bins (feature_dimensions self))).
  { apply (elem_of_list_to_set (C := gset (list Z))). rewrite <- Hdom.
    apply elem_of_dom. eauto. }
  unfold setitem. rewrite Hshape, (normalize_index_id _ _ Hidx), Hg.
  rewrite insert_id by done. rewrite <- Hshape. by destruct (solutions self).
Qed.

Lemma place_all_app self xs ys :
  place_all self (xs ++ ys) = (self' ← place_all self xs; place_all self' ys).
Proof.
  revert self. induction xs as [|x xs IH]; intros self; cbn; [done|].
  destruct (place_in_mapelites self x) as [self1|]; cbn; [apply IH|done].
Qed.

Lemma evolve_places (fuel n : nat) self rnd (pos : nat) self' (pos' : nat) :
  mutation_is_pure -> well_formed self ->
  evolve fuel n self rnd pos = Some (Ok (self', pos')) ->
  exists xs, length xs = n /\ place_all self xs = Ok self'.
Proof.
  intros Hpure. revert self pos. induction n as [|n IH]; intros self pos Hwf;
    cbn [evolve stopping_criteria].
  - intros [= <- <-]. by exists [].
  - destruct (select_loop fuel self rnd 1 [] [] pos)
      as [[[[idxs inds] pos1]|]|] eqn:E; try discriminate.
    assert (Hch0 : chosen self [] []) by (split; constructor).
    destruct (select_loop_Ok _ _ _ _ _ _ _ _ _ _ Hwf Hch0 E) as [[_ Hch] _].
    destruct Hch as [|idx ind idxs inds Hocc _]; [discriminate|].
    destruct mutation_args as [args|]; [|discriminate].
    destruct (mutation_op ind args rnd pos1) as [[m pos2]|] eqn:Em; [|discriminate].
    rewrite (Hpure _ _ _ _ _ _ Em), (setitem_selected self idx ind Hwf Hocc).
    replace (mk _ _ _ _ _ _ _) with self by (by destruct self).
    destruct (offspring m) as [|child ?]; [discriminate|].
    destruct (place_in_mapelites self child) as [self2|] eqn:Ep; [|discriminate].
    destruct (place_in_mapelites_well_formed _ _ _ Hwf Ep) as (Hwf2 & _).
    intros (xs & Hlen & Hxs)%IH; [|done].
    exists (child :: xs). split; [cbn; lia|]. cbn. by rewrite Ep.
Qed.

(** X20: with a mutation operator that leaves its argument as it found it,
    a [run] that returns has done nothing to a well-formed archive but
    call [place_in_mapelites] once for each of the [random_solutions]
    seeds and once in each of the [iterations]. *)
Theorem run_is_a_sequence_of_placements (fuel : nat) self rnd (pos : nat)
    self' (pos' : nat) :
  mutation_is_pure -> well_formed self ->
  run fuel self rnd pos = Some (Ok (self', pos')) ->
  exists xs, length xs = (random_solutions self + iterations self)%nat /\
             place_all self xs = Ok self'.
Proof.
  intros Hpure Hwf. unfold run.
  destruct (generate_initial_population self rnd pos) as [[self1 pos1]|] eqn:Hseed;
    [|discriminate].
  apply initial_population_loop_attributes in Hseed as Hattr.
  destruct Hattr as [_ Hiter]. rewrite Hiter.
  rewrite generate_initial_population_places in Hseed.
  destruct (place_all self (generated (random_solutions self) rnd pos).1)
    as [self1'|] eqn:Hxs; [|discriminate].
  injection Hseed as -> _.
  destruct (place_all_well_formed _ _ _ Hwf Hxs) as (Hwf1 & _).
  destruct (evolve fuel (iterations self) self1 rnd pos1)
    as [[[self2 pos2]|]|] eqn:E; try discriminate.
  destruct (evolve_places _ _ _ _ _ _ _ Hpure Hwf1 E) as (ys & Hlen & Hys).
  destruct (save_logs self2); [|discriminate].
  destruct (plot_map_of_elites self2); [|discriminate].
  intros [= <- <-].
  exists ((generated (random_solutions self) rnd pos).1 ++ ys). split.
  - rewrite length_app, Hlen. f_equal. clear.
    generalize (random_solutions self) as k. intros k. revert pos.
    induction k as [|k IH]; intros pos; cbn; [done|].
    destruct (generate_random_solution rnd pos) as [x p1].
    specialize (IH p1). destruct (generated k rnd p1). cbn in *. lia.
  - by rewrite place_all_app, Hxs.
Qed.

End Run.

(** ** The further properties on the concrete optimizer *)

Section ExtrasExamples.
Import Example RunExample Archive Orchestrator.

Ltac evaluated := vm_compute; reflexivity.
Ltac decided := apply (bool_decide_unpack _); vm_compute; exact I.

Lemma grids_stay_in_sync_witness :
  place_all (archive true) seeds = Ok (seeded true) /\
  in_sync (seeded true) seeds.
Proof.
  split; [evaluated|].
  apply (grids_stay_in_sync 10 3 true (archive true) (seeded true) seeds);
    evaluated.
Defined.

Lemma maximization_performances_stay_inf_witness :
  default nan (data (performances (seeded false)) !! [1]) = inf.
Proof.
  apply (maximization_performances_stay_inf 10 3 (archive false) (seeded false)
           seeds [1]); evaluated.
Defined.

Lemma stored_performance_only_improves_witness :
  f 5 = inf \/ beats (minimization (archive true)) (f 5) inf = true.
Proof.
  apply (stored_performance_only_improves (archive true) seeds (seeded true) [1]).
  - decided.
  - evaluated.
  - evaluated.
  - evaluated.
Defined.

Lemma placing_twice_is_placing_once_witness :
  place_in_mapelites (unwrap (place_in_mapelites (seeded true) (half 3, f 3)))
    (half 3, f 3)
  = Ok (unwrap (place_in_mapelites (seeded true) (half 3, f 3))).
Proof.
  apply (placing_twice_is_placing_once (seeded true) (half 3, f 3)).
  - decided.
  - evaluated.
Defined.

Lemma placement_errors_witness :
  match map_x_to_b (half 3, f 3) with
  | Raise e => place_in_mapelites (seeded true) (half 3, f 3) = Raise e
  | Ok b =>
      match normalize_index (ft_bins (feature_dimensions (seeded true))) b with
      | Some _ => exists self', place_in_mapelites (seeded true) (half 3, f 3) = Ok self'
      | None => place_in_mapelites (seeded true) (half 3, f 3)
                = Raise (IndexError "index out of bounds")
      end
  end /\
  match @map_x_to_b astray (half 3, f 3) with
  | Raise e => @place_in_mapelites astray (seeded true) (half 3, f 3) = Raise e
  | Ok b =>
      match normalize_index (ft_bins (feature_dimensions (seeded true))) b with
      | Some _ => exists self',
          @place_in_mapelites astray (seeded true) (half 3, f 3) = Ok self'
      | None => @place_in_mapelites astray (seeded true) (half 3, f 3)
                = Raise (IndexError "index out of bounds")
      end
  end.
Proof.
  split.
  - apply (placement_errors (seeded true) (half 3, f 3)).
    + decided.
    + intros b H. vm_compute in H. injection H as <-. vm_compute. lia.
  - apply (@placement_errors astray (seeded true) (half 3, f 3)).
    + decided.
    + intros b H. vm_compute in H. injection H as <-. vm_compute. lia.
Defined.

(** The two cases of the example, evaluated: the first candidate enters
    bin 1, the second is sent off the grid. *)
Lemma placement_errors_evaluated :
  is_Ok (place_in_mapelites (seeded true) (half 3, f 3)) = true /\
  @place_in_mapelites astray (seeded true) (half 3, f 3)
    = Raise (IndexError "index out of bounds").
Proof. split; vm_compute; reflexivity. Qed.

Lemma constructed_archive_witness :
  Forall (fun ft => FeatureDimension.bins ft <> []) (feature_dimensions (archive true)) /\
  size (data (performances (archive true)))
    = Z.to_nat (cell_count (ft_bins (feature_dimensions (archive true)))) /\
  size (data (solutions (archive true)))
    = Z.to_nat (cell_count (ft_bins (feature_dimensions (archive true)))) /\
  occupied_cells (archive true) = ∅ /\
  Cells.non_sentinel_cells (archive true) = ∅.
Proof.
  apply (constructed_archive 10 3 true (archive true)). evaluated.
Defined.

Lemma placement_occupancy_witness :
  (size (occupied_cells sunk) <= S (size (occupied_cells (seeded true))))%nat /\
  (size (occupied_cells (seeded true)) <= S (size (occupied_cells sunk)))%nat /\
  (initialized bottomless = true ->
     (size (occupied_cells (seeded true)) <= size (occupied_cells sunk))%nat) /\
  (initialized bottomless = false -> sunk <> seeded true ->
     forall b c, map_x_to_b bottomless = Ok b ->
       normalize_index (ft_bins (feature_dimensions (seeded true))) b = Some c ->
       occupied_cells sunk !! c = None).
Proof.
  apply (placement_occupancy (seeded true) sunk bottomless).
  - decided.
  - evaluated.
Defined.

(** The candidate takes bin 1 from its occupant, and the selector then
    sees two elites where there were three. *)
Lemma bottomless_empties_its_cell :
  getitem (performances sunk) [1] = Ok (S754_infinity true) /\
  size (occupied_cells (seeded true)) = 3%nat /\
  size (occupied_cells sunk) = 2%nat.
Proof. repeat split; vm_compute; reflexivity. Qed.

Lemma discretized_coordinates_in_grid_witness :
  [0; 2] ∈ ndindex (ft_bins [ft; ft_le]) /\
  normalize_index (ft_bins [ft; ft_le]) [0; 2] = Some [0; 2].
Proof.
  apply (discretized_coordinates_in_grid [ft; ft_le] [half 1; half 5] [0; 2]).
  repeat constructor; evaluated.
Defined.

Lemma discretize_monotone_witness :
  FeatureDimension.discretize ft (half 1) = Ok 0 /\
  FeatureDimension.discretize ft (half 5) = Ok 2 /\
  0 <= 2.
Proof.
  split; [evaluated|]. split; [evaluated|].
  apply (discretize_monotone ft (half 1) (half 5) 0 2); evaluated.
Defined.

Lemma discretize_decreasing_witness :
  (raises (FeatureDimension.discretize ft_down (half 3)) = true <->
     float_ge (half 3) (nth 0 (FeatureDimension.bins ft_down) nan) = true \/
     float_lt (half 3) (nth 3 (FeatureDimension.bins ft_down) nan) = true) /\
  (forall i : Z, FeatureDimension.discretize ft_down (half 3) = Ok i ->
     0 <= i < Z.of_nat 3 /\
     float_gt (nth (Z.to_nat i) (FeatureDimension.bins ft_down) nan) (half 3) = true /\
     float_ge (half 3) (nth (S (Z.to_nat i)) (FeatureDimension.bins ft_down) nan) = true).
Proof.
  apply (discretize_decreasing ft_down (half 3) 3); evaluated.
Defined.

Lemma random_selection_never_raises_witness :
  random_selection 10 (seeded true) counting 2 0 = None \/
  exists inds pos',
    random_selection 10 (seeded true) counting 2 0 = Some (Ok (inds, pos')).
Proof.
  apply (random_selection_never_raises 10 (seeded true) counting 2 0).
  - decided.
  - decided.
Defined.

Lemma random_selection_empty_axis_witness :
  random_selection 10 flat counting 1 0 = Some (Raise (ValueError "low >= high")).
Proof.
  apply (random_selection_empty_axis 10 flat counting 1 0).
  - decided.
  - lia.
Defined.

Lemma random_selection_of_all_witness :
  random_selection 10 (seeded true) counting 3 0 = Some (Ok (seeds, 3%nat)) /\
  (half 3, f 5) ∈ seeds.
Proof.
  split; [evaluated|].
  apply (random_selection_of_all 10 (seeded true) counting 0 3 seeds) with (c := [1]).
  - decided.
  - evaluated.
  - evaluated.
Defined.

Lemma seeding_occupies_at_most_G_witness :
  place_all (archive true) (generated 3 cycling 0).1 = Ok (seeded_by true cycling) /\
  (size (occupied_cells (seeded_by true cycling)) <= 3)%nat /\
  forall fuel rnd' (n pos1 : nat) res,
    (3 < n)%nat ->
    random_selection fuel (seeded_by true cycling) rnd' n pos1 <> Some (Ok res).
Proof.
  apply (seeding_occupies_at_most_G 10 3 true (archive true) (seeded_by true cycling)
           cycling 0 6); evaluated.
Defined.

Lemma heatmap_axes_fit_grid_witness :
  match shape (performances (seeded true)) with
  | [] => heatmap_axes (seeded true) = Raise (IndexError "list index out of range")
  | [n] => exists x_ax, heatmap_axes (seeded true) = Ok (x_ax, ["a"]) /\
             Z.of_nat (length x_ax) = n
  | n :: m :: _ => exists x_ax y_ax, heatmap_axes (seeded true) = Ok (x_ax, y_ax) /\
             Z.of_nat (length x_ax) = n /\ Z.of_nat (length y_ax) = m
  end.
Proof.
  apply (heatmap_axes_fit_grid (seeded true)).
  - decided.
  - repeat constructor. vm_compute. discriminate.
Defined.

Lemma run_under_maximization_never_returns_witness :
  run 20 (archive false) cycling 0 <> Some (Ok (archive false, 6%nat)).
Proof.
  apply (run_under_maximization_never_returns 10 3 (archive false) cycling 0).
  - evaluated.
  - lia.
  - apply Forall_forall. repeat constructor; vm_compute; discriminate.
Defined.

Lemma run_without_mutation_args_witness :
  @run problem without_args 20 (archive true) cycling 0
    = Some (Raise (TypeError "argument after ** must be a mapping, not NoneType")).
Proof.
  apply (proj2 (@run_without_mutation_args problem without_args
                  (archive true) cycling 0 eq_refl ltac:(vm_compute; lia) 20)
           (seeded_by true cycling) 6%nat ([(f 0, f 1)], 7%nat)); evaluated.
Defined.

Lemma run_without_feature_dimensions_witness :
  @run dimensionless collaborators 5 pointlike cycling 0
    = Some (Raise (IndexError "list index out of range")).
Proof.
  apply (proj2 (@run_without_feature_dimensions dimensionless collaborators
                  pointlike cycling 0 eq_refl 5)
           pointlike_seeded.1 pointlike_seeded.2
           pointlike_evolved.1 pointlike_evolved.2); evaluated.
Defined.

(** The example operator leaves its argument as it found it. *)
Lemma collaborators_pure : mutation_is_pure.
Proof. intros ind args rnd pos m pos' [= <- _]. reflexivity. Qed.

Lemma run_is_a_sequence_of_placements_witness :
  run 20 (archive true) cycling 0 = Some (Ok (final.1, final.2)) /\
  exists xs, length xs = (random_solutions (archive true) + iterations (archive true))%nat /\
             place_all (archive true) xs = Ok final.1.
Proof.
  split; [evaluated|].
  apply (run_is_a_sequence_of_placements 20 (archive true) cycling 0 final.1 final.2).
  - exact collaborators_pure.
  - decided.
  - evaluated.
Defined.

End ExtrasExamples.
